(** * PDFree: the image-extraction, compression and pagination core of
    [src/utils/pdfUtils.ts], as a shallow embedding.

    The browser, pdf-lib, pdf.js, html2canvas and JSZip are outside the
    repository.  What the code reads from them is input data of the model
    (the document as pdf-lib shows it, the document as pdf.js shows it), and
    what the code asks of them is either recorded (the sequence of
    [zip.file] calls, the log of rendering-engine calls) or taken from a
    [Runtime] record (the PNG encoder, [parseInt]).

    JavaScript numbers that the code uses as integers are [Z] or [nat];
    qualities and scales, which are fractions, are exact rationals [Q]. *)

From Stdlib Require Import ZArith QArith Qround Qminmax Lia Ascii.
From stdpp Require Import base tactics option list relations sorting gmap strings pretty.

Local Open Scope Z_scope.

(** ** JavaScript primitives used by the code *)

Module JS.

(** [x | 0]: the 32-bit two's complement wrap-around. *)
Definition toInt32 (z : Z) : Z := (z + 2 ^ 31) mod 2 ^ 32 - 2 ^ 31.

(** [x << n] on a number. *)
Definition shl (x : Z) (n : Z) : Z := toInt32 (Z.shiftl (toInt32 x) n).

(** [s.startsWith(p)] and [hay.includes(needle)] on strings. *)
Fixpoint startsWith (p s : string) : bool :=
  match p, s with
  | EmptyString, _ => true
  | String a p', String b s' => if Ascii.eqb a b then startsWith p' s' else false
  | String _ _, EmptyString => false
  end.

Fixpoint includes (hay needle : string) : bool :=
  startsWith needle hay ||
  match hay with
  | EmptyString => false
  | String _ hay' => includes hay' needle
  end.

(** Truthiness of a number that may be [undefined] or [NaN] ([None]). *)
Definition truthy (v : option Z) : bool :=
  match v with
  | Some z => negb (z =? 0)
  | None => false
  end.

(** [a || b] on such numbers. *)
Definition or (a b : option Z) : option Z := if truthy a then a else b.

(** [Math.round] on a rational: halves go up. *)
Definition round (q : Q) : Z := Qfloor (q + (1 # 2))%Q.

End JS.

(** ** The archive: the sequence of [zip.file(name, data)] calls *)

Inductive Ext := jpg | png | bin.

Definition extString (e : Ext) : string :=
  match e with jpg => "jpg" | png => "png" | bin => "bin" end.

Record ZipEntry := {
  entrySeq : nat;          (* the value of imageCount in the name *)
  entryPage : nat;         (* the page number in the name *)
  entryExt : Ext;
  entryData : list Z       (* the bytes stored *)
}.

(** [`image_${imageCount}_page${page}.${ext}`] *)
Definition entryName (e : ZipEntry) : string :=
  "image_" +:+ pretty (entrySeq e) +:+ "_page" +:+ pretty (entryPage e)
    +:+ "." +:+ extString (entryExt e).

(** Calls made on the rendering engine (pdf.js), in order. *)
Inductive EngineCall :=
| GetDocument
| GetPage (pageNum : nat)
| Render (pageNum : nat)
| GetOperatorList (pageNum : nat)
| Cleanup (pageNum : nat).

(** The mutable state of one [extractPDFImages] run. *)
Record ExtractState := {
  zip : list ZipEntry;
  imageCount : nat;
  extractedHashes : gset string;
  engineLog : list EngineCall
}.

Definition initialState : ExtractState :=
  {| zip := []; imageCount := 0; extractedHashes := ∅; engineLog := [] |}.

(** [imageCount++; zip.file(`image_${imageCount}_page${page}.${ext}`, data)] *)
Definition emit (page : nat) (e : Ext) (data : list Z) (st : ExtractState)
  : ExtractState :=
  let n := S (imageCount st) in
  {| zip := zip st ++ [ {| entrySeq := n; entryPage := page;
                           entryExt := e; entryData := data |} ];
     imageCount := n;
     extractedHashes := extractedHashes st;
     engineLog := engineLog st |}.

(** [extractedHashes.add(hashKey)] *)
Definition addHash (k : string) (st : ExtractState) : ExtractState :=
  {| zip := zip st; imageCount := imageCount st;
     extractedHashes := {[ k ]} ∪ extractedHashes st;
     engineLog := engineLog st |}.

Definition logCall (c : EngineCall) (st : ExtractState) : ExtractState :=
  {| zip := zip st; imageCount := imageCount st;
     extractedHashes := extractedHashes st;
     engineLog := engineLog st ++ [c] |}.

(** ** Canvases and pixel buffers *)

Record Canvas := {
  canvasWidth : Z;
  canvasHeight : Z;
  canvasPixels : list Z     (* RGBA samples, row by row *)
}.

(** What the code takes from the JavaScript runtime. *)
Record Runtime := {
  (** [canvas.toBlob(cb, 'image/png')]: the PNG bytes, [None] for a null blob *)
  toBlob : Canvas → option (list Z);
  (** [parseInt(s)]: [None] for NaN *)
  parseInt : string → option Z
}.

(** ** Method 1: the document as pdf-lib shows it *)

(** A dictionary value as the code observes it: [numberValue] (undefined on
    anything but a PDFNumber) and [toString()]. *)
Record PDFObject := {
  numberValue : option Z;
  toString : string
}.

Record PDFRawStream := {
  Subtype : option string;            (* dict.get('Subtype')?.toString() *)
  Width : option PDFObject;
  Height : option PDFObject;
  ColorSpace : option string;         (* toString() of the entry *)
  BitsPerComponent : option PDFObject;
  Filter : option string;             (* toString() of the entry *)
  contents : list Z;                  (* xObj.contents *)
  decoded : option (list Z)           (* decodePDFRawStream(xObj).decode():
                                         the contents themselves when there is
                                         no Filter, the inflated contents under
                                         FlateDecode; [None] when it throws *)
}.

(** What [xObjects.get(key)], followed through a reference, gives. *)
Inductive XObject :=
| XMissing                       (* undefined, or a dangling reference *)
| XNotRawStream                  (* anything that is not a PDFRawStream *)
| XStream (s : PDFRawStream).

Inductive LibPage :=
| PageThrows                     (* reading the resources raises *)
| PageNoResources                (* [!resources] *)
| PageNoXObjects                 (* no XObject entry, or not a PDFDict *)
| PageXObjects (entries : list (string * XObject)).

(** ** Method 2: the document as pdf.js shows it *)

Record ImageBitmap := {
  bitmapWidth : Z;
  bitmapHeight : Z;
  bitmapPixels : list Z
}.

(** [imgData.data]: a Uint8Array or Uint8ClampedArray, or something else. *)
Inductive PixelData :=
| TypedArray (bytes : list Z)
| OtherData.

(** The two shapes of a resolved image object the code looks for. *)
Inductive ImgData :=
| ImgBitmap (bitmap : ImageBitmap)       (* imgData.bitmap instanceof ImageBitmap *)
| ImgRaw (data : PixelData) (width height : Z)
| ImgOther.

Record ObjStore := {
  resolved : gmap string ImgData;   (* [has(name)] holds, [get(name)] answers *)
  awaited : gmap string ImgData     (* [get(name, cb)] answers within 2000 ms *)
}.

Record PdfjsPage := {
  viewport1 : Q * Q;                (* getViewport({scale: 1}): width, height *)
  fnArray : list Z;
  argsArray : list (option string); (* ops.argsArray[i]?.[0] *)
  objs : option ObjStore;
  commonObjs : option (gmap string ImgData)
}.

(** [PageFault]: the awaited [getPage] of this page rejects.  (A rejection
    of the page's [render().promise] or [getOperatorList] leaves each of the
    operations below in the same way, with those calls made before it.) *)
Inductive PageLoad :=
| PageFault
| PageReady (p : PdfjsPage).

(** The file, seen through both libraries.  [None]: loading it rejects. *)
Record Document := {
  libView : option (list LibPage);    (* PDFDocument.load(buf), getPages() *)
  jsView : option (list PageLoad)     (* pdfjsLib.getDocument({data: buf}) *)
}.

(** ** Stream decoding *)

Inductive FilterKind := DCT | Deflate | OtherFilter.

(** The if-chain on [filterStr] of the walker. *)
Definition classifyFilter (filterStr : string) : FilterKind :=
  if JS.includes filterStr "DCTDecode" || JS.includes filterStr "/DCT" then DCT
  else if JS.includes filterStr "FlateDecode" || JS.includes filterStr "/Flat"
          || String.eqb filterStr ""
  then Deflate
  else OtherFilter.

Inductive ChannelLayout := RGB | Gray | RGBA.

(** The if-chain of the walker on the decoded length and the colour space
    name; [None] is its final [continue]. *)
Definition chooseLayout (decodedLength pixelCount : Z) (isRGB isGray : bool)
  : option ChannelLayout :=
  if (decodedLength =? pixelCount * 3) || isRGB then Some RGB
  else if (decodedLength =? pixelCount) || isGray then Some Gray
  else if decodedLength =? pixelCount * 4 then Some RGBA
  else None.

(** The if-chain of the harvester, on the length alone. *)
Definition chooseLayoutRaw (dataLength pixelCount : Z) : option ChannelLayout :=
  if dataLength =? pixelCount * 4 then Some RGBA
  else if dataLength =? pixelCount * 3 then Some RGB
  else if dataLength =? pixelCount then Some Gray
  else None.

(** [new Uint8ClampedArray(n)] *)
Definition newClampedArray (n : Z) : list Z := replicate (Z.to_nat n) 0.

(** Reading past the end of a typed array gives [undefined], which a
    Uint8ClampedArray stores as 0. *)
Definition sample (a : list Z) (i : nat) : Z := default 0 (a !! i).

(** One round of the RGB loop, at [j = 3t], [k = 4t].  The walker guards it
    with [j < decoded.length && k < rgba.length]; the guard, once false,
    stays false, so folding over all [t] is the loop. *)
Definition rgbStep (data : list Z) (rgba : list Z) (t : nat) : list Z :=
  let j := (3 * t)%nat in
  let k := (4 * t)%nat in
  if decide (j < length data ∧ k < length rgba)%nat then
    <[(k + 3)%nat := 255]>
      (<[(k + 2)%nat := sample data (j + 2)]>
        (<[(k + 1)%nat := sample data (j + 1)]>
          (<[k := sample data j]> rgba)))
  else rgba.

Definition grayStep (data : list Z) (rgba : list Z) (t : nat) : list Z :=
  let k := (4 * t)%nat in
  if decide (t < length data ∧ k < length rgba)%nat then
    <[(k + 3)%nat := 255]>
      (<[(k + 2)%nat := sample data t]>
        (<[(k + 1)%nat := sample data t]>
          (<[k := sample data t]> rgba)))
  else rgba.

Definition toRGBA (layout : ChannelLayout) (data : list Z) (pixelCount : Z)
  : list Z :=
  let rgba := newClampedArray (pixelCount * 4) in
  match layout with
  | RGB => fold_left (rgbStep data) (seq 0 (Z.to_nat pixelCount)) rgba
  | Gray => fold_left (grayStep data) (seq 0 (Z.to_nat pixelCount)) rgba
  | RGBA => data
  end.

(** The canvas after [putImageData(new ImageData(rgba, w, h), 0, 0)]. *)
Definition paintedCanvas (w h : Z) (layout : ChannelLayout) (data : list Z)
  : Canvas :=
  {| canvasWidth := w; canvasHeight := h;
     canvasPixels := toRGBA layout data (w * h) |}.

(** ** The deduplicator's keys *)

(** [hash = ((hash << 5) - hash + streamBytes[i]) | 0] over the first
    [Math.min(100, streamBytes.length)] bytes. *)
Definition hashStep (hash b : Z) : Z := JS.toInt32 (JS.shl hash 5 - hash + b).

Definition sampleHash (streamBytes : list Z) : Z :=
  let sampleSize := Nat.min 100 (length streamBytes) in
  fold_left hashStep (take sampleSize streamBytes) 0.

(** [`${w}x${h}_${hash}_${streamBytes.length}`] *)
Definition walkerHashKey (w h : Z) (streamBytes : list Z) : string :=
  pretty w +:+ "x" +:+ pretty h +:+ "_" +:+ pretty (sampleHash streamBytes)
    +:+ "_" +:+ pretty (length streamBytes).

(** [`pdfjs_${w}x${h}`] *)
Definition bitmapHashKey (w h : Z) : string :=
  "pdfjs_" +:+ pretty w +:+ "x" +:+ pretty h.

(** [`pdfjs_raw_${w}x${h}_${data.length}`] *)
Definition rawHashKey (w h : Z) (data : list Z) : string :=
  "pdfjs_raw_" +:+ pretty w +:+ "x" +:+ pretty h +:+ "_" +:+ pretty (length data).

(** ** extractPDFImages *)

Inductive ExtractError :=
| NoImagesError      (* 'No extractable embedded images found in this PDF. ...' *)
| EngineError.       (* a rejection of pdf.js, passed on as it is *)

Inductive Outcome :=
| Resolves (archive : list ZipEntry)   (* zip.generateAsync({type: 'blob'}) *)
| Rejects (e : ExtractError).

Inductive Completion := Completed | Faulted.

Section Extraction.

Variable rt : Runtime.

(** [(x as any).numberValue || parseInt(x.toString())] *)
Definition dimension (x : PDFObject) : option Z :=
  JS.or (numberValue x) (parseInt rt (toString x)).

(** [(bitsPerComponent as any)?.numberValue || 8] *)
Definition bitsOf (bitsPerComponent : option PDFObject) : Z :=
  default 8 (JS.or (bitsPerComponent ≫= numberValue) (Some 8)).

(** [!subtype || subtype.toString() !== '/Image'], negated *)
Definition isImage (s : PDFRawStream) : bool :=
  match Subtype s with
  | Some t => String.eqb t "/Image"
  | None => false
  end.

(** The deflate branch: decode, pick the channel layout, paint, encode. *)
Definition decodeFlate (pageIdx : nat) (s : PDFRawStream) (w h : Z)
    (st : ExtractState) : ExtractState :=
  match decoded s with
  | None => st                                    (* catch: failed to decode *)
  | Some bytes =>
    let colorSpaceStr := default "" (ColorSpace s) in
    let isRGB := JS.includes colorSpaceStr "RGB" in
    let isGray := JS.includes colorSpaceStr "Gray"
                  || JS.includes colorSpaceStr "Grey" in
    let bpc := bitsOf (BitsPerComponent s) in
    if negb (bpc =? 8) then st                    (* continue *)
    else
      let pixelCount := w * h in
      match chooseLayout (Z.of_nat (length bytes)) pixelCount isRGB isGray with
      | None => st                                (* continue *)
      | Some layout =>
        match toBlob rt (paintedCanvas w h layout bytes) with
        | Some blob => emit (pageIdx + 1) png blob st
        | None => st
        end
      end
  end.

(** The body of [for (const key of keys)], for the object found under a key. *)
Definition walkXObject (pageIdx : nat) (x : XObject) (st : ExtractState)
  : ExtractState :=
  match x with
  | XMissing => st
  | XNotRawStream => st
  | XStream s =>
    if negb (isImage s) then st
    else
      match Width s, Height s with
      | Some width, Some height =>
        match dimension width, dimension height with
        | Some w, Some h =>
          if (w <=? 0) || (h <=? 0) then st
          else
            let streamBytes := contents s in
            let hashKey := walkerHashKey w h streamBytes in
            if decide (hashKey ∈ extractedHashes st) then st
            else
              let st := addHash hashKey st in
              match classifyFilter (default "" (Filter s)) with
              | DCT => emit (pageIdx + 1) jpg streamBytes st
              | Deflate => decodeFlate pageIdx s w h st
              | OtherFilter => emit (pageIdx + 1) bin streamBytes st
              end
        | _, _ => st                              (* NaN: [!w || !h] *)
        end
      | _, _ => st                                (* [!width || !height] *)
      end
  end.

Definition walkKeys (pageIdx : nat) (entries : list (string * XObject))
    (st : ExtractState) : ExtractState :=
  fold_left (fun st kv => walkXObject pageIdx kv.2 st) entries st.

(** [for (let pageIdx = 0; pageIdx < pages.length; pageIdx++)], inside the
    outer [try]: a page that raises ends the walk, and what was emitted
    before stays. *)
Fixpoint walkPages (pages : list LibPage) (pageIdx : nat) (st : ExtractState)
  : ExtractState :=
  match pages with
  | [] => st
  | PageThrows :: _ => st
  | PageNoResources :: rest => walkPages rest (S pageIdx) st
  | PageNoXObjects :: rest => walkPages rest (S pageIdx) st
  | PageXObjects entries :: rest =>
    walkPages rest (S pageIdx) (walkKeys pageIdx entries st)
  end.

(** Method 1: the direct walk over the pdf-lib object model. *)
Definition method1 (d : Document) (st : ExtractState) : ExtractState :=
  match libView d with
  | None => st                                    (* catch: pdf-lib failed *)
  | Some pages => walkPages pages 0 st
  end.

(** [objs.get] if [objs.has], else [commonObjs], else the awaited [objs.get]
    raced against the 2000 ms timer. *)
Definition resolveImage (p : PdfjsPage) (imgName : string) : option ImgData :=
  let fromObjs := objs p ≫= λ o, resolved o !! imgName in
  let fromCommon :=
    match fromObjs with
    | Some d => Some d
    | None => commonObjs p ≫= λ c, c !! imgName
    end in
  match fromCommon with
  | Some d => Some d
  | None => objs p ≫= λ o, awaited o !! imgName
  end.

(** [blob && blob.size > 100] *)
Definition emitIfLarge (pageNum : nat) (blob : option (list Z))
    (st : ExtractState) : ExtractState :=
  match blob with
  | Some b => if 100 <? Z.of_nat (length b) then emit pageNum png b st else st
  | None => st
  end.

(** What the harvester does with a resolved image object. *)
Definition harvestImage (pageNum : nat) (imgData : ImgData) (st : ExtractState)
  : ExtractState :=
  match imgData with
  | ImgBitmap bitmap =>
    let w := bitmapWidth bitmap in
    let h := bitmapHeight bitmap in
    if (0 <? w) && (0 <? h) then
      let hashKey := bitmapHashKey w h in
      if decide (hashKey ∈ extractedHashes st) then st
      else
        let st := addHash hashKey st in
        let imgCanvas := {| canvasWidth := w; canvasHeight := h;
                            canvasPixels := bitmapPixels bitmap |} in
        emitIfLarge pageNum (toBlob rt imgCanvas) st
    else st
  | ImgRaw data w h =>
    if (w =? 0) || (h =? 0) then st               (* [imgData.width && imgData.height] *)
    else
      match data with
      | OtherData => st                           (* not a typed array *)
      | TypedArray bytes =>
        let hashKey := rawHashKey w h bytes in
        if decide (hashKey ∈ extractedHashes st) then st
        else
          let st := addHash hashKey st in
          let pixelCount := w * h in
          match chooseLayoutRaw (Z.of_nat (length bytes)) pixelCount with
          | None => st                            (* continue *)
          | Some layout =>
            (* a negative size makes [new ImageData] raise: caught, skipped *)
            if (w <? 0) || (h <? 0) then st
            else emitIfLarge pageNum
                   (toBlob rt (paintedCanvas w h layout bytes)) st
          end
      end
  | ImgOther => st
  end.

(** [fn === 85 || fn === 82 || fn === 88] *)
Definition isPaintImage (fn : Z) : bool := (fn =? 85) || (fn =? 82) || (fn =? 88).

(** The body of the loop over [ops.fnArray], at index [i].  The first
    component is [processedImageNames]. *)
Definition harvestOp (p : PdfjsPage) (pageNum : nat)
    (acc : gset string * ExtractState) (i : nat) : gset string * ExtractState :=
  let '(processedImageNames, st) := acc in
  if isPaintImage (default 0 (fnArray p !! i)) then
    match mjoin (argsArray p !! i) with
    | None => acc
    | Some imgName =>
      if String.eqb imgName "" then acc           (* [!imgName] *)
      else if decide (imgName ∈ processedImageNames) then acc
      else
        let processedImageNames := {[ imgName ]} ∪ processedImageNames in
        match resolveImage p imgName with
        | None => (processedImageNames, st)       (* [!imgData] *)
        | Some imgData => (processedImageNames, harvestImage pageNum imgData st)
        end
    end
  else acc.

Definition harvestPage (p : PdfjsPage) (pageNum : nat) (st : ExtractState)
  : ExtractState :=
  let st := logCall (GetOperatorList pageNum) (logCall (Render pageNum) st) in
  let st := (fold_left (harvestOp p pageNum) (seq 0 (length (fnArray p))) (∅, st)).2 in
  logCall (Cleanup pageNum) st.

(** [for (let pageNum = 1; pageNum <= pdf.numPages; pageNum++)]: nothing
    catches a rejection of the page's awaited calls. *)
Fixpoint harvestPages (pages : list PageLoad) (pageNum : nat) (st : ExtractState)
  : ExtractState * Completion :=
  match pages with
  | [] => (st, Completed)
  | PageFault :: _ => (logCall (GetPage pageNum) st, Faulted)
  | PageReady p :: rest =>
    harvestPages rest (S pageNum) (harvestPage p pageNum (logCall (GetPage pageNum) st))
  end.

(** Method 2, behind its guard [if (imageCount === 0)]. *)
Definition method2 (d : Document) (st : ExtractState) : ExtractState * Completion :=
  if (imageCount st =? 0)%nat then
    let st := logCall GetDocument st in
    match jsView d with
    | None => (st, Faulted)
    | Some pages => harvestPages pages 1 st
    end
  else (st, Completed).

(** The state when the function reaches its last statement, or is left by a
    rejection. *)
Definition extractRun (d : Document) : ExtractState * Completion :=
  method2 d (method1 d initialState).

Definition extractPDFImages (d : Document) : Outcome :=
  match extractRun d with
  | (_, Faulted) => Rejects EngineError
  | (st, Completed) =>
    if (imageCount st =? 0)%nat then Rejects NoImagesError
    else Resolves (zip st)
  end.

End Extraction.

(** ** compressPDF *)

Record CompressionOptions := {
  imageQuality : Q;      (* 1-100 (JPEG quality %) *)
  dpi : Q;
  fullPageMode : bool
}.

Definition defaultCompressionOptions : CompressionOptions :=
  {| imageQuality := 50; dpi := 150; fullPageMode := true |}.

(** One page of the output: the canvas the page was rendered on, the quality
    given to [canvas.toDataURL('image/jpeg', q)], and the size of the page
    the JPEG is drawn on. *)
Record EncodedPage := {
  rasterWidth : Z;
  rasterHeight : Z;
  rasterFill : string;
  jpegQuality : Q;
  pageWidth : Q;
  pageHeight : Q
}.

Record CompressedPDF := {
  outPages : list EncodedPage;
  outTitle : string;
  outAuthor : string;
  outSubject : string;
  outKeywords : list string;
  outProducer : string;
  outCreator : string
}.

(** [page.getViewport({scale})]: the size at scale 1, scaled.  Sizes are
    exact rationals here; the code computes them in doubles, whose product
    can fall on the other side of a half before [Math.round]. *)
Definition getViewport (p : PdfjsPage) (scale : Q) : Q * Q :=
  ((viewport1 p).1 * scale, (viewport1 p).2 * scale)%Q.

(** The quality handed to the JPEG encoder: the two branches on
    [options.fullPageMode]. *)
Definition encoderQuality (options : CompressionOptions) : Q :=
  let quality := (imageQuality options / 100)%Q in
  if fullPageMode options then quality
  else
    let adjustedQuality := Qmax quality (3 # 10) in
    adjustedQuality.

Definition compressPage (options : CompressionOptions) (p : PdfjsPage)
  : EncodedPage :=
  let scale := (dpi options / 72)%Q in
  let vp := getViewport p scale in
  let orig := getViewport p 1 in
  {| rasterWidth := Z.max 1 (JS.round vp.1);
     rasterHeight := Z.max 1 (JS.round vp.2);
     rasterFill := "#ffffff";
     jpegQuality := encoderQuality options;
     pageWidth := orig.1;
     pageHeight := orig.2 |}.

(** The loop over the pages; a page whose awaited calls reject rejects the
    whole operation ([None]).  The JPEG encoder, [embedJpg] and [save] are
    taken to succeed: [None] stands for a rejection of pdf.js only. *)
Fixpoint compressPages (options : CompressionOptions) (pages : list PageLoad)
  : option (list EncodedPage) :=
  match pages with
  | [] => Some []
  | PageFault :: _ => None
  | PageReady p :: rest =>
    out ← compressPages options rest;
    Some (compressPage options p :: out)
  end.

Definition compressPDF (d : Document) (options : CompressionOptions)
  : option CompressedPDF :=
  pages ← jsView d;
  out ← compressPages options pages;
  Some {| outPages := out;
          outTitle := ""; outAuthor := ""; outSubject := "";
          outKeywords := [];
          outProducer := "PDFree"; outCreator := "PDFree" |}.

(** ** renderHtmlToPageImages: the pagination slicer *)

Definition A4_WIDTH_PX : Z := 794.
Definition A4_HEIGHT_PX : Z := 1123.
Definition PAGE_PADDING : Z := 60.

(** One page canvas: its size, its background fill, the source rectangle of
    the capture drawn on it ([srcH] rows from row [srcY]; nothing is drawn
    unless [srcH > 0]) and the JPEG quality it is encoded with. *)
Record PageSlice := {
  sliceCanvasWidth : Z;
  sliceCanvasHeight : Z;
  sliceFill : string;
  srcY : Z;
  srcH : Z;
  sliceDrawn : bool;
  sliceQuality : Q
}.

(** [Math.max(1, Math.ceil(contentHeight / usableHeight))] *)
Definition totalPages (contentHeight usableHeight : Z) : Z :=
  Z.max 1 (Qceiling (inject_Z contentHeight / inject_Z usableHeight)).

(** The canvas html2canvas returns for [{width, height, scale}]. *)
Definition html2canvasSize (width height scale : Z) : Z * Z :=
  (width * scale, height * scale).

(** The body of [for (let page = 0; page < totalPages; page++)], with the
    page size ([A4_WIDTH_PX], [A4_HEIGHT_PX] in the code) as parameters. *)
Definition slicePage (pageW pageH : Z) (fullCanvasHeight : Z) (quality : Q)
    (page : nat) : PageSlice :=
  let usableHeight := pageH in
  let y := Z.of_nat page * usableHeight * 2 in
  let h := Z.min (pageH * 2) (fullCanvasHeight - y) in
  {| sliceCanvasWidth := pageW * 2;
     sliceCanvasHeight := pageH * 2;
     sliceFill := "#ffffff";
     srcY := y;
     srcH := h;
     sliceDrawn := 0 <? h;
     sliceQuality := quality |}.

Definition slicePages (pageW pageH : Z) (contentHeight : Z) (quality : Q)
  : list PageSlice :=
  let usableHeight := pageH in
  let total := totalPages contentHeight usableHeight in
  let fullCanvas := html2canvasSize pageW contentHeight 2 in
  map (slicePage pageW pageH fullCanvas.2 quality) (seq 0 (Z.to_nat total)).

(** [contentHeight] is [container.scrollHeight] after layout. *)
Definition renderHtmlToPageImages (contentHeight : Z) (quality : Q)
  : list PageSlice :=
  slicePages A4_WIDTH_PX A4_HEIGHT_PX contentHeight quality.

(** ** protectPDF *)

(** The part of pdf-lib the function uses. *)
Record PdfLib := {
  PDFDoc : Type;
  load : list Z → option PDFDoc;                (* PDFDocument.load(buf) *)
  setProducer : string → PDFDoc → PDFDoc;
  save : PDFDoc → list Z
}.

Definition protectPDF (lib : PdfLib) (file : list Z) (_pw : string)
  : option (list Z) :=
  pdf ← load lib file;
  Some (save lib (setProducer lib "PDFree - Protected" pdf)).

(** ** The state of a run: steps and invariant *)

(** The three ways the code touches the state while it works on [page]. *)
Inductive step (page : nat) : ExtractState → ExtractState → Prop :=
| step_emit e data st : step page st (emit page e data st)
| step_hash k st : step page st (addHash k st)
| step_log c st : step page st (logCall c st).

Definition steps (page : nat) : ExtractState → ExtractState → Prop :=
  rtc (step page).

Create HintDb extract discriminated.

(** Entries are numbered 1, 2, ... in the order of their emission, their
    page numbers never decrease, and none is beyond [bound]. *)
Record numbered (bound : nat) (st : ExtractState) : Prop := {
  numbered_seq : map entrySeq (zip st) = seq 1 (imageCount st);
  numbered_sorted : StronglySorted le (map entryPage (zip st));
  numbered_bound : Forall (λ p, p ≤ bound)%nat (map entryPage (zip st))
}.

(** ** The deduplicator's records *)

(** Where a raster record comes from: the walk, or the harvest in one of
    its two shapes. *)
Inductive Provenance := WalkerSourced | HarvestedBitmap | HarvestedRaw.

Record RasterRecord := {
  recSource : Provenance;
  recWidth : Z;
  recHeight : Z;
  recBytes : list Z
}.

(** The first [Math.min(100, length)] bytes. *)
Definition sampledBytes (bytes : list Z) : list Z :=
  take (Nat.min 100 (length bytes)) bytes.

(** Two records agree on width, height, byte length and sampled bytes. *)
Definition agree (r1 r2 : RasterRecord) : Prop :=
  recWidth r1 = recWidth r2 ∧ recHeight r1 = recHeight r2 ∧
  length (recBytes r1) = length (recBytes r2) ∧
  sampledBytes (recBytes r1) = sampledBytes (recBytes r2).

(** The key the code looks up and adds in [extractedHashes]. *)
Definition fingerprint (r : RasterRecord) : string :=
  match recSource r with
  | WalkerSourced => walkerHashKey (recWidth r) (recHeight r) (recBytes r)
  | HarvestedBitmap => bitmapHashKey (recWidth r) (recHeight r)
  | HarvestedRaw => rawHashKey (recWidth r) (recHeight r) (recBytes r)
  end.

Inductive RasterSource :=
| FromWalker (x : XObject)
| FromHarvester (img : ImgData).

(** The record of an object that gets as far as the lookup in
    [extractedHashes]; [None] for an object the code drops before. *)
Definition recordOf (rt : Runtime) (src : RasterSource) : option RasterRecord :=
  match src with
  | FromWalker (XStream s) =>
    if isImage s then
      match Width s, Height s with
      | Some width, Some height =>
        match dimension rt width, dimension rt height with
        | Some w, Some h =>
          if (w <=? 0) || (h <=? 0) then None
          else Some {| recSource := WalkerSourced; recWidth := w;
                       recHeight := h; recBytes := contents s |}
        | _, _ => None
        end
      | _, _ => None
      end
    else None
  | FromWalker _ => None
  | FromHarvester (ImgBitmap bitmap) =>
    if (0 <? bitmapWidth bitmap) && (0 <? bitmapHeight bitmap) then
      Some {| recSource := HarvestedBitmap; recWidth := bitmapWidth bitmap;
              recHeight := bitmapHeight bitmap; recBytes := bitmapPixels bitmap |}
    else None
  | FromHarvester (ImgRaw (TypedArray bytes) w h) =>
    if (w =? 0) || (h =? 0) then None
    else Some {| recSource := HarvestedRaw; recWidth := w; recHeight := h;
                 recBytes := bytes |}
  | FromHarvester _ => None
  end.

(** What the run does with the object, on page [page] (the page index of
    the walk, the page number of the harvest). *)
Definition processSource (rt : Runtime) (page : nat) (src : RasterSource)
    (st : ExtractState) : ExtractState :=
  match src with
  | FromWalker x => walkXObject rt page x st
  | FromHarvester img => harvestImage rt page img st
  end.

(** ** Sample inputs *)

(** A runtime whose PNG encoder answers with the pixels behind a 128-byte
    header, and whose [parseInt] finds no number. *)
Definition sampleRuntime : Runtime :=
  {| toBlob := λ c, Some (replicate 128 0 ++ canvasPixels c);
     parseInt := λ _, None |}.

Definition pdfNumber (z : Z) : PDFObject :=
  {| numberValue := Some z; toString := pretty z |}.

(** An image stream of [w] by [h] pixels. *)
Definition imageStream (w h : Z) (colorSpace : option string)
    (bits : option Z) (filter : option string) (bytes : list Z)
    (inflated : option (list Z)) : PDFRawStream :=
  {| Subtype := Some "/Image";
     Width := Some (pdfNumber w); Height := Some (pdfNumber h);
     ColorSpace := colorSpace;
     BitsPerComponent := pdfNumber <$> bits;
     Filter := filter;
     contents := bytes;
     decoded := inflated |}.

(** A pdf.js page that paints the images of [images], all of them resolved
    in the page's object store. *)
Definition paintingPage (images : list (string * ImgData)) : PdfjsPage :=
  {| viewport1 := (595 # 1, 842 # 1)%Q;
     fnArray := (λ _, 85) <$> images;
     argsArray := (λ kv, Some kv.1) <$> images;
     objs := Some {| resolved := list_to_map images; awaited := ∅ |};
     commonObjs := None |}.

Definition bitmap2x2 : ImgData :=
  ImgBitmap {| bitmapWidth := 2; bitmapHeight := 2;
               bitmapPixels := [255;0;0;255; 0;255;0;255; 0;0;255;255; 9;9;9;255] |}.

(** Nothing to walk; the first page paints one bitmap, the second page
    cannot be loaded. *)
Definition faultAfterEmission : Document :=
  {| libView := Some [PageNoResources; PageNoResources];
     jsView := Some [PageReady (paintingPage [("img_p0_1", bitmap2x2)]);
                     PageFault] |}.

(** One pixel at one bit per component, stored without a filter. *)
Definition oneBitPixel : PDFRawStream :=
  imageStream 1 1 (Some "/DeviceGray") (Some 1) None [128] (Some [128]).

(** The same pixel as pdf.js hands it over: raw data of the same size. *)
Definition oneBitPixelRaw : ImgData := ImgRaw (TypedArray [128]) 1 1.

(** The walk meets the pixel and skips it; the harvest meets it again. *)
Definition walkedThenHarvested : Document :=
  {| libView := Some [PageXObjects [("Im0", XStream oneBitPixel)]];
     jsView := Some [PageReady (paintingPage [("img_p0_1", oneBitPixelRaw)])] |}.

(** Two by two pixels, one byte each, under a colour space named RGB; the
    contents are the zlib stream of the four bytes. *)
Definition rgbNamedOneChannel : PDFRawStream :=
  imageStream 2 2 (Some "[ /Indexed /DeviceRGB 255 6 0 R ]") (Some 8)
    (Some "/FlateDecode") [120;156;227;18;145;211;0;0;0;204;0;101]
    (Some [10;20;30;40]).

(** An 8-bit gray pixel stored without any filter. *)
Definition unfilteredGray : PDFRawStream :=
  imageStream 1 1 (Some "/DeviceGray") (Some 8) None [7] (Some [7]).

(** A deflated gray pixel (the zlib stream of the byte 7) that declares
    zero bits per component. *)
Definition zeroDepth : PDFRawStream :=
  imageStream 1 1 (Some "/DeviceGray") (Some 0) (Some "/FlateDecode")
    [120;156;99;7;0;0;8;0;8] (Some [7]).

(** A deflated gray pixel at sixteen bits per component (the zlib stream of
    its two bytes). *)
Definition sixteenBit : PDFRawStream :=
  imageStream 1 1 (Some "/DeviceGray") (Some 16) (Some "/FlateDecode")
    [120;156;99;103;7;0;0;23;0;15] (Some [7;7]).

(** Two A4 pages with nothing painted on them. *)
Definition twoBlankPages : Document :=
  {| libView := Some [PageNoResources; PageNoResources];
     jsView := Some [PageReady (paintingPage []); PageReady (paintingPage [])] |}.

(** The lowest quality a caller can ask for, in the balanced mode. *)
Definition lowestBalanced : CompressionOptions :=
  {| imageQuality := 1; dpi := 72; fullPageMode := false |}.

(** ** Page operations on a loaded document *)

(** Between [PDFDocument.load] and [save], the page tools see a document as
    the list of its pages: [getPageCount] is its length, [removePage] drops
    the page at an index, and [copyPages] hands over the pages at the given
    indices, raising on an index that is none of the document's. *)
Section PageOperations.

Context {Page : Type}.

(** The empty A4 page that [addPage()] makes. *)
Variable defaultPage : Page.

(** pdf-lib's [save]: a document left without pages gets a default page
    before it is written ([addDefaultPage], which the code leaves on). *)
Definition savedPages (pdf : list Page) : list Page :=
  match pdf with
  | [] => [defaultPage]
  | _ :: _ => pdf
  end.

Definition getPageCount (pdf : list Page) : Z := Z.of_nat (length pdf).

Definition removePage (idx : Z) (pdf : list Page) : list Page :=
  delete (Z.to_nat idx) pdf.

(** pdf-lib's [copyPages]: the page at each index, in the order given;
    reading the node of a page that is not there raises. *)
Definition copyPages (src : list Page) (indices : list Z) : option (list Page) :=
  mapM (λ i, if 0 <=? i then src !! Z.to_nat i else None) indices.

(** [[...l].sort((a, b) => b - a)] *)
Definition sortDescending (l : list Z) : list Z :=
  @merge_sort Z (λ a b, b ≤ a) (λ a b, decide (b ≤ a)) l.

(** [removePDFPages], from the loaded document to the pages of the saved
    one. *)
Definition removePDFPages (pdf : list Page) (pagesToRemove : list Z) : list Page :=
  savedPages
    (fold_left
       (λ pdf idx,
          if (0 <=? idx) && (idx <? getPageCount pdf) then removePage idx pdf
          else pdf)
       (sortDescending pagesToRemove) pdf).

(** [extractPDFPages]: the pages of the saved new document, [None] when
    [copyPages] raises. *)
Definition extractPDFPages (pdf : list Page) (pageIndices : list Z)
  : option (list Page) :=
  let valid := filter (λ i, 0 ≤ i ∧ i < getPageCount pdf) pageIndices in
  copied ← copyPages pdf valid;
  Some (savedPages copied).

(** [rearrangePDFPages]: the pages of the saved new document. *)
Definition rearrangePDFPages (pdf : list Page) (newOrder : list Z)
  : option (list Page) :=
  copied ← copyPages pdf newOrder;
  Some (savedPages copied).

(** The pages whose index, counted from [k], passes [keep], in order. *)
Fixpoint pagesWhere (keep : nat → bool) (k : nat) (pdf : list Page) : list Page :=
  match pdf with
  | [] => []
  | p :: rest =>
    if keep k then p :: pagesWhere keep (S k) rest
    else pagesWhere keep (S k) rest
  end.

End PageOperations.

(** ** The page selection and page order of the tool dialog *)

(** [prev.includes(i) ? prev.filter(p => p !== i) : [...prev, i]] *)
Definition togglePage (i : Z) (prev : list Z) : list Z :=
  if decide (i ∈ prev) then filter (λ p, p ≠ i) prev else prev ++ [i].

Inductive Direction := up | down.

(** [a[i]] on an array with holes: [None] is undefined. *)
Definition arrayGet (a : list (option Z)) (i : nat) : option Z := mjoin (a !! i).

(** [a[i] = v]: past the end, the array grows over a run of holes. *)
Definition arraySet (i : nat) (v : option Z) (a : list (option Z))
  : list (option Z) :=
  if decide (i < length a)%nat then <[i := v]> a
  else a ++ replicate (i - length a) None ++ [v].

(** [movePageInOrder]: the page order afterwards. *)
Definition movePageInOrder (pageOrder : list (option Z)) (fromIndex : nat)
    (direction : Direction) : list (option Z) :=
  let toIndex :=
    match direction with
    | up => Z.of_nat fromIndex - 1
    | down => Z.of_nat fromIndex + 1
    end in
  if (toIndex <? 0) || (Z.of_nat (length pageOrder) <=? toIndex) then pageOrder
  else
    let newOrder := pageOrder in
    let moved := arrayGet newOrder (Z.to_nat toIndex) in
    let displaced := arrayGet newOrder fromIndex in
    arraySet (Z.to_nat toIndex) displaced (arraySet fromIndex moved newOrder).

(** ** convertPlainTextToHtml *)

(** [s.replace(/c/g, rep)] for a one-character pattern. *)
Fixpoint replaceAll (c : Ascii.ascii) (rep : string) (s : string) : string :=
  match s with
  | EmptyString => EmptyString
  | String a rest =>
    if Ascii.eqb a c then rep +:+ replaceAll c rep rest
    else String a (replaceAll c rep rest)
  end.

(** [s.split(sep)] for a one-character separator. *)
Fixpoint split (sep : Ascii.ascii) (s : string) : list string :=
  match s with
  | EmptyString => [EmptyString]
  | String a rest =>
    if Ascii.eqb a sep then EmptyString :: split sep rest
    else
      match split sep rest with
      | first :: more => String a first :: more
      | [] => [String a EmptyString]
      end
  end.

(** The constant [escaped] of the function. *)
Definition escaped (text : string) : string :=
  replaceAll ">"%char "&gt;"
    (replaceAll "<"%char "&lt;" (replaceAll "&"%char "&amp;" text)).

Definition doubleQuote : string := String (Ascii.ascii_of_nat 34) EmptyString.

Definition newline : Ascii.ascii := Ascii.ascii_of_nat 10.

Definition convertPlainTextToHtml (text : string) (mono : bool) : string :=
  if mono then
    "<pre style=" +:+ doubleQuote
      +:+ "font-family: 'Courier New', monospace; font-size: 12px; white-space: pre-wrap; word-break: break-word;"
      +:+ doubleQuote +:+ ">" +:+ escaped text +:+ "</pre>"
  else
    let paragraphs := split newline (escaped text) in
    String.concat ""
      (map (λ p, "<p>" +:+ (if String.eqb p "" then "&nbsp;" else p) +:+ "</p>")
         paragraphs).

(** The characters of a string. *)
Definition chars (s : string) : list Ascii.ascii := String.list_ascii_of_string s.

(** ** getPDFThumbnails *)

(** The loop over the pages, [None] when an awaited call of a page rejects.
    [thumbnail] is the data URL of the page rendered at [scale]. *)
Fixpoint thumbnailLoop (thumbnail : PdfjsPage → Q → string) (scale : Q)
    (pages : list PageLoad) : option (list string) :=
  match pages with
  | [] => Some []
  | PageFault :: _ => None
  | PageReady p :: rest =>
    thumbs ← thumbnailLoop thumbnail scale rest;
    Some (thumbnail p scale :: thumbs)
  end.

(** The whole function sits in a [try] whose [catch] returns []. *)
Definition getPDFThumbnails (thumbnail : PdfjsPage → Q → string) (d : Document)
    (scale : Q) : list string :=
  match jsView d ≫= thumbnailLoop thumbnail scale with
  | Some thumbs => thumbs
  | None => []
  end.

(** ** Notions used in the statements *)

(** A .png entry of more than 100 bytes. *)
Definition largePng (e : ZipEntry) : Prop :=
  entryExt e = png ∧ (100 < length (entryData e))%nat.


(** The function [removePDFPages] folds over the sorted indices. *)
Definition removeStep {Page : Type} (pdf : list Page) (idx : Z) : list Page :=
  if (0 <=? idx) && (idx <? getPageCount pdf) then removePage idx pdf else pdf.

(** The function [copyPages] maps over the indices. *)
Definition pageAt {Page : Type} (pdf : list Page) (i : Z) : option Page :=
  if 0 <=? i then pdf !! Z.to_nat i else None.

(** What the three replacements of [escaped] make of one character. *)
Definition escapeChar (c : Ascii.ascii) : string :=
  if Ascii.eqb c "&" then "&amp;"
  else if Ascii.eqb c "<" then "&lt;"
  else if Ascii.eqb c ">" then "&gt;"
  else String c EmptyString.

(** ** More sample inputs *)

Definition otherBitmap2x2 : ImgData :=
  ImgBitmap {| bitmapWidth := 2; bitmapHeight := 2;
               bitmapPixels := [1;2;3;255; 4;5;6;255; 7;8;9;255; 0;0;0;255] |}.

(** A page that paints the same image twice. *)
Definition paintsTwice : PdfjsPage :=
  paintingPage [("img_p0_1", bitmap2x2); ("img_p0_1", bitmap2x2)].

Definition highQuality : CompressionOptions :=
  {| imageQuality := 90; dpi := 300; fullPageMode := true |}.

(** A deflated 8-bit gray pixel: the zlib stream of the byte 7. *)
Definition deflatedGray : PDFRawStream :=
  imageStream 1 1 (Some "/DeviceGray") (Some 8) (Some "/FlateDecode")
    [120;156;99;7;0;0;8;0;8] (Some [7]).

(** The first bytes of a JPEG file, stored as they are. *)
Definition plainJpeg : PDFRawStream :=
  imageStream 2 1 (Some "/DeviceRGB") (Some 8) (Some "/DCTDecode")
    [255;216;255;224] None.

(** The same bytes deflated on top: the chain names both filters, and
    pdf-lib has no decoder for the second. *)
Definition deflatedJpeg : PDFRawStream :=
  imageStream 2 1 (Some "/DeviceRGB") (Some 8) (Some "[ /FlateDecode /DCTDecode ]")
    [120;156;251;127;227;255;3;0;9;102;3;183] None.

(** A fax-coded bitmap: a filter pdf-lib has no decoder for. *)
Definition faxImage : PDFRawStream :=
  imageStream 3 2 (Some "/DeviceGray") (Some 1) (Some "/CCITTFaxDecode")
    [0;1;2] None.


(** The walk emits a JPEG on page 1; reading the resources of page 2
    raises. *)
Definition walkFaultAfterEmission : Document :=
  {| libView := Some [PageXObjects [("Im0", XStream plainJpeg)]; PageThrows];
     jsView := None |}.

(** * Properties *)

(** ** How a run changes its state *)

Lemma steps_refl page st : steps page st st.
Proof. apply rtc_refl. Qed.

Lemma steps_trans page st1 st2 st3 :
  steps page st1 st2 → steps page st2 st3 → steps page st1 st3.
Proof. apply rtc_trans. Qed.

Lemma steps_emit page e data st st' :
  steps page st st' → steps page st (emit page e data st').
Proof. intros H. eapply rtc_r; [exact H | constructor]. Qed.

Lemma steps_hash page k st st' :
  steps page st st' → steps page st (addHash k st').
Proof. intros H. eapply rtc_r; [exact H | constructor]. Qed.

Lemma steps_log page c st st' :
  steps page st st' → steps page st (logCall c st').
Proof. intros H. eapply rtc_r; [exact H | constructor]. Qed.

#[export] Hint Resolve steps_refl steps_emit steps_hash steps_log : extract.

Section ExtractionSteps.

Variable rt : Runtime.

Lemma decodeFlate_steps pageIdx s w h st :
  steps (pageIdx + 1) st (decodeFlate rt pageIdx s w h st).
Proof.
  unfold decodeFlate.
  repeat case_match; auto with extract.
Qed.

Lemma walkXObject_steps pageIdx x st :
  steps (pageIdx + 1) st (walkXObject rt pageIdx x st).
Proof.
  unfold walkXObject.
  repeat case_match; try (auto with extract; fail).
  eapply steps_trans; [|apply decodeFlate_steps]. auto with extract.
Qed.

Lemma walkKeys_steps pageIdx entries st :
  steps (pageIdx + 1) st (walkKeys rt pageIdx entries st).
Proof.
  unfold walkKeys. revert st.
  induction entries as [|kv entries IH]; intros st; simpl.
  - apply steps_refl.
  - eapply steps_trans; [apply walkXObject_steps | apply IH].
Qed.

Lemma emitIfLarge_steps pageNum blob st :
  steps pageNum st (emitIfLarge pageNum blob st).
Proof. unfold emitIfLarge. repeat case_match; auto with extract. Qed.

Lemma harvestImage_steps pageNum img st :
  steps pageNum st (harvestImage rt pageNum img st).
Proof.
  unfold harvestImage.
  repeat case_match; try (auto with extract; fail);
    (eapply steps_trans; [|apply emitIfLarge_steps]); auto with extract.
Qed.

Lemma harvestOp_steps p pageNum acc i :
  steps pageNum acc.2 (harvestOp rt p pageNum acc i).2.
Proof.
  unfold harvestOp. destruct acc as [names st]; simpl.
  repeat case_match; simpl; auto using harvestImage_steps with extract.
Qed.

Lemma harvestPage_steps p pageNum st :
  steps pageNum st (harvestPage rt p pageNum st).
Proof.
  unfold harvestPage. apply steps_log.
  generalize (seq 0 (length (fnArray p))) as idx.
  assert (∀ idx acc st0, steps pageNum st0 acc.2 →
            steps pageNum st0 (fold_left (harvestOp rt p pageNum) idx acc).2) as Hfold.
  { induction idx as [|i idx IH]; intros acc st0 Hacc; simpl; [done|].
    apply IH. eapply steps_trans; [exact Hacc | apply harvestOp_steps]. }
  intros idx. apply Hfold. simpl. auto with extract.
Qed.

End ExtractionSteps.

(** ** Invariants of the state *)

Lemma numbered_initial bound : numbered bound initialState.
Proof. split; simpl; constructor. Qed.

Lemma numbered_length bound st :
  numbered bound st → length (zip st) = imageCount st.
Proof.
  intros [Hseq _ _].
  rewrite <- (length_map entrySeq), Hseq. apply length_seq.
Qed.

Lemma numbered_weaken b1 b2 st :
  (b1 ≤ b2)%nat → numbered b1 st → numbered b2 st.
Proof.
  intros Hle [Hseq Hsorted Hbound]. split; [done..|].
  eapply Forall_impl; [exact Hbound|]. simpl. lia.
Qed.

Lemma step_numbered page st st' :
  numbered page st → step page st st' → numbered page st'.
Proof.
  intros [Hseq Hsorted Hbound] Hstep.
  destruct Hstep as [e data st | k st | c st]; split;
    unfold emit; cbn [zip imageCount]; try done.
  - by rewrite map_app, Hseq, seq_S.
  - rewrite map_app. simpl.
    apply StronglySorted_app_2; [| done | repeat constructor].
    intros x1 x2 Hx1 Hx2. apply list_elem_of_singleton in Hx2 as ->.
    rewrite Forall_forall in Hbound. by apply Hbound.
  - rewrite map_app. apply Forall_app. split; [done|]. repeat constructor.
Qed.

Lemma steps_numbered bound page st st' :
  (bound ≤ page)%nat → numbered bound st → steps page st st' → numbered page st'.
Proof.
  intros Hle Hst Hsteps.
  apply (numbered_weaken _ _ _ Hle) in Hst.
  induction Hsteps as [|st1 st2 st3 Hstep _ IH]; [done|].
  apply IH. by eapply step_numbered.
Qed.

Lemma steps_hashes page st st' :
  steps page st st' → extractedHashes st ⊆ extractedHashes st'.
Proof.
  induction 1 as [|st1 st2 st3 Hstep _ IH]; [done|].
  etrans; [|exact IH]. destruct Hstep; simpl; set_solver.
Qed.


Lemma numbered_of_count_0 bound bound' st :
  numbered bound st → imageCount st = 0%nat → numbered bound' st.
Proof.
  intros Hst Hcount.
  pose proof (numbered_length _ _ Hst) as Hlen. rewrite Hcount in Hlen.
  apply nil_length_inv in Hlen.
  split; rewrite ?Hlen, ?Hcount; simpl; constructor.
Qed.

Section RunInvariants.

Variable rt : Runtime.

Lemma walkPages_numbered pages pageIdx st :
  numbered pageIdx st →
  numbered (pageIdx + length pages) (walkPages rt pages pageIdx st).
Proof.
  revert pageIdx st.
  induction pages as [|p pages IH]; intros pageIdx st Hst; simpl.
  - by rewrite Nat.add_0_r.
  - replace (pageIdx + S (length pages))%nat with (S pageIdx + length pages)%nat
      by lia.
    destruct p as [| | |entries].
    + eapply numbered_weaken; [|exact Hst]. lia.
    + apply IH. eapply numbered_weaken; [|exact Hst]. lia.
    + apply IH. eapply numbered_weaken; [|exact Hst]. lia.
    + apply IH. replace (S pageIdx) with (pageIdx + 1)%nat by lia.
      eapply steps_numbered; [| exact Hst | apply walkKeys_steps]. lia.
Qed.

Lemma method1_numbered d :
  ∃ bound, numbered bound (method1 rt d initialState).
Proof.
  unfold method1. destruct (libView d) as [pages|].
  - eexists. apply walkPages_numbered, numbered_initial.
  - exists 0%nat. apply numbered_initial.
Qed.

Lemma harvestPages_numbered pages pageNum st :
  numbered pageNum st →
  numbered (pageNum + length pages) (harvestPages rt pages pageNum st).1.
Proof.
  revert pageNum st.
  induction pages as [|p pages IH]; intros pageNum st Hst; simpl.
  - by rewrite Nat.add_0_r.
  - replace (pageNum + S (length pages))%nat with (S pageNum + length pages)%nat
      by lia.
    destruct p as [|p]; simpl.
    + eapply steps_numbered; [| exact Hst | apply steps_log, steps_refl]. lia.
    + apply (IH (S pageNum)). eapply numbered_weaken with (b1 := pageNum); [lia|].
      eapply steps_numbered; [| exact Hst |]; [lia|].
      eapply steps_trans; [|apply harvestPage_steps].
      apply steps_log, steps_refl.
Qed.

Lemma method2_numbered d bound st :
  numbered bound st → ∃ bound', numbered bound' (method2 rt d st).1.
Proof.
  intros Hst. unfold method2.
  destruct (imageCount st =? 0)%nat eqn:Hcount; [|by eexists].
  apply Nat.eqb_eq in Hcount.
  assert (numbered 1 (logCall GetDocument st)) as Hlogged.
  { eapply steps_numbered with (bound := 1%nat); [lia | | apply steps_log, steps_refl].
    by eapply numbered_of_count_0. }
  destruct (jsView d) as [pages|]; [|by eexists].
  eexists. by apply harvestPages_numbered.
Qed.

Lemma extractRun_numbered d :
  ∃ bound, numbered bound (extractRun rt d).1.
Proof.
  unfold extractRun.
  destruct (method1_numbered d) as [bound Hwalk].
  by eapply method2_numbered.
Qed.

(** The walk never calls the rendering engine. *)
Lemma walkXObject_log pageIdx x st :
  engineLog (walkXObject rt pageIdx x st) = engineLog st.
Proof.
  unfold walkXObject, decodeFlate. repeat case_match; done.
Qed.

Lemma walkPages_log pages pageIdx st :
  engineLog (walkPages rt pages pageIdx st) = engineLog st.
Proof.
  revert pageIdx st.
  induction pages as [|p pages IH]; intros pageIdx st; simpl; [done|].
  destruct p as [| | |entries]; rewrite ?IH; try done.
  unfold walkKeys. revert st.
  induction entries as [|kv entries IHe]; intros st; simpl; [done|].
  by rewrite IHe, walkXObject_log.
Qed.

Lemma method1_log d : engineLog (method1 rt d initialState) = [].
Proof.
  unfold method1. destruct (libView d); [|done]. by rewrite walkPages_log.
Qed.

(** Calls are only ever added to the log. *)
Lemma steps_log_prefix page st st' :
  steps page st st' → engineLog st `prefix_of` engineLog st'.
Proof.
  induction 1 as [|st1 st2 st3 Hstep _ IH]; [done|].
  etrans; [|exact IH]. destruct Hstep; simpl; [done..|].
  by apply prefix_app_r.
Qed.

Lemma harvestPages_log_prefix pages pageNum st :
  engineLog st `prefix_of` engineLog (harvestPages rt pages pageNum st).1.
Proof.
  revert pageNum st.
  induction pages as [|p pages IH]; intros pageNum st; simpl; [done|].
  destruct p as [|p]; simpl.
  - by apply prefix_app_r.
  - etrans; [|apply IH].
    eapply (steps_log_prefix pageNum).
    eapply steps_trans; [|apply harvestPage_steps].
    apply steps_log, steps_refl.
Qed.

End RunInvariants.

(** ** The outcome of extractPDFImages *)

Section ExtractionOutcome.

Variable rt : Runtime.

Lemma method2_skipped d st :
  imageCount st ≠ 0%nat → method2 rt d st = (st, Completed).
Proof.
  intros Hcount. unfold method2.
  by destruct (Nat.eqb_spec (imageCount st) 0).
Qed.

Lemma method2_log d st :
  imageCount st = 0%nat →
  engineLog st ++ [GetDocument] `prefix_of` engineLog (method2 rt d st).1.
Proof.
  intros Hcount. unfold method2. rewrite Hcount. simpl.
  destruct (jsView d) as [pages|]; simpl; [|done].
  etrans; [|apply harvestPages_log_prefix]. done.
Qed.

Lemma walked_count d :
  zip (method1 rt d initialState) = [] ↔
  imageCount (method1 rt d initialState) = 0%nat.
Proof.
  destruct (method1_numbered rt d) as [bound Hwalk].
  rewrite <- (numbered_length _ _ Hwalk).
  split; [by intros -> | apply nil_length_inv].
Qed.

Lemma run_count d :
  zip (extractRun rt d).1 = [] ↔ imageCount (extractRun rt d).1 = 0%nat.
Proof.
  destruct (extractRun_numbered rt d) as [bound Hrun].
  rewrite <- (numbered_length _ _ Hrun).
  split; [by intros -> | apply nil_length_inv].
Qed.

End ExtractionOutcome.

(** The last statement of the function: the descriptive error is raised
    exactly when the run reaches it with no entry in the archive, the
    archive is returned exactly when the run reaches it with an entry in it,
    a run that is left by a rejection of the rendering engine never reaches
    it, and a run whose walk emitted an entry returns what the walk
    emitted. *)
Theorem extract_outcome (rt : Runtime) (d : Document) :
  let walked := method1 rt d initialState in
  let run := extractRun rt d in
  (extractPDFImages rt d = Rejects NoImagesError ↔
     run.2 = Completed ∧ zip run.1 = []) ∧
  (extractPDFImages rt d = Resolves (zip run.1) ↔
     run.2 = Completed ∧ zip run.1 ≠ []) ∧
  (extractPDFImages rt d = Rejects EngineError ↔ run.2 = Faulted) ∧
  match zip walked with
  | [] => True
  | _ :: _ => extractPDFImages rt d = Resolves (zip walked)
  end.
Proof.
  intros walked run.
  pose proof (run_count rt d) as Hrun.
  pose proof (walked_count rt d) as Hwalked.
  fold run in Hrun. fold walked in Hwalked.
  assert (extractPDFImages rt d =
          match run.2 with
          | Faulted => Rejects EngineError
          | Completed => if (imageCount run.1 =? 0)%nat
                         then Rejects NoImagesError else Resolves (zip run.1)
          end) as Hout.
  { unfold extractPDFImages. fold run. by destruct run as [st [|]]. }
  split; [|split; [|split]].
  - rewrite Hout. destruct run.2.
    + destruct (Nat.eqb_spec (imageCount run.1) 0) as [Hz|Hnz].
      * split; [|done]. intros _. split; [done | by apply Hrun].
      * split; [done|]. intros [_ Hzip]. by apply Hrun in Hzip.
    + split; [done | by intros [? _]].
  - rewrite Hout. destruct run.2.
    + destruct (Nat.eqb_spec (imageCount run.1) 0) as [Hz|Hnz].
      * split; [done|]. intros [_ Hzip]. by apply Hrun in Hz.
      * split; [|done]. intros _. split; [done|]. by rewrite Hrun.
    + split; [done | by intros [? _]].
  - rewrite Hout. destruct run.2; [|done].
    split; [|done]. by destruct (imageCount run.1 =? 0)%nat.
  - destruct (zip walked) as [|e es] eqn:Hzip; [done|].
    assert (imageCount walked ≠ 0%nat) as Hcount.
    { intros Hz. apply Hwalked in Hz. congruence. }
    unfold extractPDFImages, extractRun. fold walked.
    rewrite (method2_skipped rt d walked Hcount).
    destruct (Nat.eqb_spec (imageCount walked) 0); [done|]. by rewrite Hzip.
Qed.

(** C1.  The code at the failing input: the harvest has put an entry in the
    archive on page 1 when page 2 cannot be loaded, and the operation ends
    with the engine's error, so the entry is lost, where the claim asks for
    the archive.  The walk, in the same position, keeps what it emitted: its
    loop is inside a [try], the awaited calls of the harvest are not. *)
Lemma extract_rejects_after_emission :
  length (zip (extractRun sampleRuntime faultAfterEmission).1) = 1%nat ∧
  extractPDFImages sampleRuntime faultAfterEmission = Rejects EngineError ∧
  extractPDFImages sampleRuntime walkFaultAfterEmission
    = Resolves [ {| entrySeq := 1; entryPage := 1; entryExt := jpg;
                    entryData := [255;216;255;224] |} ].
Proof. repeat split; vm_compute; reflexivity. Qed.

(** C2.  The rendering engine is called exactly when the walk has emitted no
    entry: then the log of engine calls starts with the document load, and
    otherwise it is empty. *)
Theorem harvest_guard (rt : Runtime) (d : Document) :
  let walked := method1 rt d initialState in
  let log := engineLog (extractRun rt d).1 in
  (GetDocument ∈ log ↔ zip walked = []) ∧
  match zip walked with
  | [] => ∃ calls, log = GetDocument :: calls
  | _ :: _ => log = []
  end.
Proof.
  intros walked log.
  pose proof (walked_count rt d) as Hwalked. fold walked in Hwalked.
  pose proof (method1_log rt d) as Hlog1. fold walked in Hlog1.
  assert (match zip walked with
          | [] => ∃ calls, log = GetDocument :: calls
          | _ :: _ => log = []
          end) as Hcases.
  { destruct (zip walked) as [|e es] eqn:Hzip.
    - assert (imageCount walked = 0%nat) as Hcount by by apply Hwalked.
      destruct (method2_log rt d walked Hcount) as [calls Hcalls].
      rewrite Hlog1 in Hcalls. exists calls. exact Hcalls.
    - assert (imageCount walked ≠ 0%nat) as Hcount.
      { intros Hz. apply Hwalked in Hz. congruence. }
      unfold log, extractRun. fold walked.
      by rewrite (method2_skipped rt d walked Hcount). }
  split; [|exact Hcases].
  destruct (zip walked) as [|e es].
  - destruct Hcases as [calls ->]. split; [done|]. intros _. left.
  - rewrite Hcases. split; [|done]. intros Hin. by apply elem_of_nil in Hin.
Qed.



(** ** The deduplicator *)

Lemma sampleHash_sampled bytes :
  sampleHash bytes = fold_left hashStep (sampledBytes bytes) 0.
Proof. reflexivity. Qed.

Lemma fingerprint_agree r1 r2 :
  recSource r1 = recSource r2 → agree r1 r2 → fingerprint r1 = fingerprint r2.
Proof.
  intros Hsrc (Hw & Hh & Hlen & Hsample).
  unfold fingerprint, walkerHashKey, rawHashKey, bitmapHashKey.
  rewrite !sampleHash_sampled, Hsrc, Hw, Hh, Hlen, Hsample. done.
Qed.

Section Deduplicator.

Variable rt : Runtime.

(** The walker on a record: suppressed if its key is known, and otherwise
    the key is added and the branch on the filter runs. *)
Lemma walkXObject_record pageIdx s r st :
  recordOf rt (FromWalker (XStream s)) = Some r →
  walkXObject rt pageIdx (XStream s) st =
    if decide (fingerprint r ∈ extractedHashes st) then st
    else
      let st' := addHash (fingerprint r) st in
      match classifyFilter (default "" (Filter s)) with
      | DCT => emit (pageIdx + 1) jpg (contents s) st'
      | Deflate => decodeFlate rt pageIdx s (recWidth r) (recHeight r) st'
      | OtherFilter => emit (pageIdx + 1) bin (contents s) st'
      end.
Proof.
  unfold recordOf, walkXObject. intros Hrec.
  destruct (isImage s); [|done]. simpl.
  destruct (Width s) as [width|], (Height s) as [height|]; try done.
  destruct (dimension rt width) as [w|], (dimension rt height) as [h|]; try done.
  destruct ((w <=? 0) || (h <=? 0)); [done|].
  by injection Hrec as <-.
Qed.

Lemma processSource_known page src r st :
  recordOf rt src = Some r →
  fingerprint r ∈ extractedHashes st →
  processSource rt page src st = st.
Proof.
  intros Hrec Hin. destruct src as [x|img]; simpl.
  - destruct x as [| |s]; try done.
    rewrite (walkXObject_record _ _ _ _ Hrec). by rewrite decide_True.
  - unfold recordOf in Hrec. unfold harvestImage.
    destruct img as [bitmap|[bytes|] w h|]; try done.
    + destruct ((0 <? bitmapWidth bitmap) && (0 <? bitmapHeight bitmap)); [|done].
      injection Hrec as <-. by rewrite decide_True.
    + destruct ((w =? 0) || (h =? 0)); [done|].
      injection Hrec as <-. by rewrite decide_True.
Qed.

Lemma processSource_registers page src r st :
  recordOf rt src = Some r →
  fingerprint r ∈ extractedHashes (processSource rt page src st).
Proof.
  intros Hrec.
  destruct (decide (fingerprint r ∈ extractedHashes st)) as [Hin|Hout].
  { by rewrite (processSource_known _ _ _ _ Hrec Hin). }
  assert (∀ page' st', steps page' (addHash (fingerprint r) st) st' →
            fingerprint r ∈ extractedHashes st') as Hlater.
  { intros page' st' Hsteps. apply (steps_hashes _ _ _ Hsteps).
    simpl. set_solver. }
  destruct src as [x|img]; simpl.
  - destruct x as [| |s]; try done.
    rewrite (walkXObject_record _ _ _ _ Hrec). rewrite decide_False by done.
    simpl. apply (Hlater (page + 1)%nat).
    destruct (classifyFilter _); auto using decodeFlate_steps with extract.
  - unfold recordOf in Hrec. unfold harvestImage.
    destruct img as [bitmap|[bytes|] w h|]; try done.
    + destruct ((0 <? bitmapWidth bitmap) && (0 <? bitmapHeight bitmap)); [|done].
      injection Hrec as <-. rewrite decide_False by done.
      apply (Hlater page). apply emitIfLarge_steps.
    + destruct ((w =? 0) || (h =? 0)); [done|].
      injection Hrec as <-. rewrite decide_False by done.
      apply (Hlater page).
      repeat case_match; auto using emitIfLarge_steps with extract.
Qed.

End Deduplicator.

(** C3 (amended).  Two records of the same provenance that agree on width,
    height, byte length and the sampled first bytes have the same key; the
    first one leaves that key in the set, and from then on, as long as the
    set still holds what it held, the second one changes nothing: it is
    suppressed. *)
Theorem duplicate_suppressed (rt : Runtime) (src1 src2 : RasterSource)
    (r1 r2 : RasterRecord) :
  recordOf rt src1 = Some r1 →
  recordOf rt src2 = Some r2 →
  recSource r1 = recSource r2 →
  agree r1 r2 →
  fingerprint r1 = fingerprint r2 ∧
  ∀ page1 st,
    fingerprint r1 ∈ extractedHashes (processSource rt page1 src1 st) ∧
    ∀ page2 st',
      extractedHashes (processSource rt page1 src1 st) ⊆ extractedHashes st' →
      processSource rt page2 src2 st' = st'.
Proof.
  intros Hrec1 Hrec2 Hsrc Hagree.
  pose proof (fingerprint_agree r1 r2 Hsrc Hagree) as Hkey.
  split; [exact Hkey|]. intros page1 st.
  pose proof (processSource_registers rt page1 src1 r1 st Hrec1) as Hin.
  split; [exact Hin|]. intros page2 st' Hsub.
  apply (processSource_known rt page2 src2 r2 st' Hrec2).
  rewrite <- Hkey. by apply Hsub.
Qed.

Lemma duplicate_suppressed_witness :
  let first := FromWalker (XStream unfilteredGray) in
  let second := FromWalker (XStream
    (imageStream 1 1 (Some "/DeviceRGB") (Some 8) (Some "/DCTDecode") [7] None)) in
  let r := {| recSource := WalkerSourced; recWidth := 1; recHeight := 1;
              recBytes := [7] |} in
  let after := processSource sampleRuntime 0 first initialState in
  fingerprint r ∈ extractedHashes after ∧
  processSource sampleRuntime 3 second after = after.
Proof.
  intros first second r after.
  assert (recordOf sampleRuntime first = Some r) as Hrec1 by reflexivity.
  assert (recordOf sampleRuntime second = Some r) as Hrec2 by reflexivity.
  assert (agree r r) as Hagree by (repeat split; reflexivity).
  destruct (duplicate_suppressed sampleRuntime first second r r
              Hrec1 Hrec2 eq_refl Hagree) as [_ Hrun].
  destruct (Hrun 0%nat initialState) as [Hin Hlater].
  split; [exact Hin|]. apply Hlater. reflexivity.
Defined.

(** C3 as stated fails across provenances: a record of the walk and a record
    of the harvest that agree on width, height, byte length and sampled
    bytes get different keys, and the second one is emitted. *)
Lemma cross_provenance_not_suppressed :
  let r1 := {| recSource := WalkerSourced; recWidth := 1; recHeight := 1;
               recBytes := [128] |} in
  let r2 := {| recSource := HarvestedRaw; recWidth := 1; recHeight := 1;
               recBytes := [128] |} in
  recordOf sampleRuntime (FromWalker (XStream oneBitPixel)) = Some r1 ∧
  recordOf sampleRuntime (FromHarvester oneBitPixelRaw) = Some r2 ∧
  agree r1 r2 ∧
  fingerprint r1 = "1x1_128_1" ∧ fingerprint r2 = "pdfjs_raw_1x1_1" ∧
  zip (method1 sampleRuntime walkedThenHarvested initialState) = [] ∧
  extractPDFImages sampleRuntime walkedThenHarvested
    = Resolves [ {| entrySeq := 1; entryPage := 1; entryExt := png;
                    entryData := replicate 128 0 ++ [128; 128; 128; 255] |} ].
Proof.
  intros r1 r2.
  split; [reflexivity|]. split; [reflexivity|].
  split; [repeat split; reflexivity|].
  repeat split; vm_compute; reflexivity.
Qed.

(** ** Stream decoding *)

(** C4 (amended).  On an 8-bit record whose stream decodes, the canvas is
    painted in the layout the if-chain picks.  The three-channel reading is
    picked exactly when the decoded length is three bytes a pixel or the
    colour space name contains RGB, whatever the other says; the one-channel
    reading is picked exactly when neither of these holds and the length is
    one byte a pixel or the name contains Gray or Grey. *)
Theorem layout_choice (rt : Runtime) (pageIdx : nat) (s : PDFRawStream)
    (w h : Z) (bytes : list Z) (st : ExtractState) :
  decoded s = Some bytes →
  bitsOf (BitsPerComponent s) = 8 →
  let name := default "" (ColorSpace s) in
  let len := Z.of_nat (length bytes) in
  let isRGB := JS.includes name "RGB" in
  let isGray := JS.includes name "Gray" || JS.includes name "Grey" in
  let picked := chooseLayout len (w * h) isRGB isGray in
  let painted layout :=
    match toBlob rt (paintedCanvas w h layout bytes) with
    | Some blob => emit (pageIdx + 1) png blob st
    | None => st
    end in
  decodeFlate rt pageIdx s w h st
    = match picked with Some layout => painted layout | None => st end ∧
  (picked = Some RGB ↔ isRGB = true ∨ len = w * h * 3) ∧
  (picked = Some Gray ↔
     isRGB = false ∧ len ≠ w * h * 3 ∧ (len = w * h ∨ isGray = true)) ∧
  (isRGB = true ∨ len = w * h * 3 →
     decodeFlate rt pageIdx s w h st = painted RGB) ∧
  (isRGB = false → len ≠ w * h * 3 → len = w * h ∨ isGray = true →
     decodeFlate rt pageIdx s w h st = painted Gray).
Proof.
  intros Hdec Hbits name len isRGB isGray picked painted.
  assert (decodeFlate rt pageIdx s w h st
          = match picked with Some layout => painted layout | None => st end)
    as Hpaint.
  { unfold decodeFlate. rewrite Hdec, Hbits. simpl.
    fold name. fold len. fold isRGB. fold isGray. fold picked.
    by destruct picked. }
  assert (picked = Some RGB ↔ isRGB = true ∨ len = w * h * 3) as Hrgb.
  { unfold picked, chooseLayout.
    destruct (Z.eqb_spec len (w * h * 3)) as [Hlen|Hlen]; simpl.
    - split; [by right | done].
    - destruct isRGB; simpl.
      + split; [by left | done].
      + split; [|by intros [? | ?]].
        repeat case_match; done. }
  assert (picked = Some Gray ↔
          isRGB = false ∧ len ≠ w * h * 3 ∧ (len = w * h ∨ isGray = true))
    as Hgray.
  { unfold picked, chooseLayout.
    destruct (Z.eqb_spec len (w * h * 3)) as [Hlen|Hlen]; simpl.
    - split; [done | by intros (_ & ? & _)].
    - destruct isRGB; simpl.
      + split; [done | by intros (? & _)].
      + destruct (Z.eqb_spec len (w * h)) as [Hone|Hone]; simpl.
        * split; [|done]. intros _. split; [done|]. split; [done | by left].
        * destruct isGray; simpl.
          -- split; [|done]. intros _. split; [done|]. split; [done | by right].
          -- split; [|by intros (_ & _ & [? | ?])].
             by destruct (len =? w * h * 4). }
  split; [exact Hpaint|]. split; [exact Hrgb|]. split; [exact Hgray|]. split.
  - intros Hcond. apply Hrgb in Hcond. by rewrite Hpaint, Hcond.
  - intros Hname Hlen Hcond.
    assert (picked = Some Gray) as Hpicked by by apply Hgray.
    by rewrite Hpaint, Hpicked.
Qed.

Lemma layout_choice_witness :
  decodeFlate sampleRuntime 0 rgbNamedOneChannel 2 2 initialState
    = emit 1 png (replicate 128 0 ++
        [10;20;30;255; 40;0;0;255; 0;0;0;0; 0;0;0;0]) initialState ∧
  chooseLayout 4 (2 * 2) true false ≠ Some Gray.
Proof.
  destruct (layout_choice sampleRuntime 0 rgbNamedOneChannel 2 2 [10;20;30;40]
              initialState eq_refl eq_refl) as (_ & _ & Hgray & Hrgb & _).
  split.
  - rewrite Hrgb; [reflexivity|]. left. reflexivity.
  - intros Hpicked. apply Hgray in Hpicked as [Hname _]. discriminate Hname.
Defined.

(** C4 as stated fails: four decoded bytes for two by two pixels are one
    byte a pixel, the colour space name contains RGB, and the bytes are read
    three a pixel, not as four gray pixels. *)
Lemma name_hint_beats_length :
  decoded rgbNamedOneChannel = Some [10;20;30;40] ∧
  JS.includes (default "" (ColorSpace rgbNamedOneChannel)) "RGB" = true ∧
  chooseLayout 4 (2 * 2) true false = Some RGB ∧
  toRGBA Gray [10;20;30;40] (2 * 2)
    = [10;10;10;255; 20;20;20;255; 30;30;30;255; 40;40;40;255] ∧
  zip (walkXObject sampleRuntime 0 (XStream rgbNamedOneChannel) initialState)
    = [ {| entrySeq := 1; entryPage := 1; entryExt := png;
           entryData := replicate 128 0 ++
             [10;20;30;255; 40;0;0;255; 0;0;0;0; 0;0;0;0] |} ].
Proof. repeat split; vm_compute; reflexivity. Qed.

(** C7 (amended).  For a record the walker accepts, an image of positive
    size that it has not seen before, the entry follows the filter name: a
    name containing DCTDecode or /DCT gives a .jpg entry holding the stream
    bytes as they are; otherwise a name containing FlateDecode or /Flat, or
    no filter name at all, gives a .png entry encoded from the canvas
    painted with the decoded bytes, the record being accepted there when it
    decodes at 8 bits into a layout the if-chain knows and the encoder
    answers, and leaving the archive as it is when it is not; any other name
    gives a .bin entry holding the stream bytes as they are. *)
Theorem entry_format (rt : Runtime) (pageIdx : nat) (s : PDFRawStream)
    (r : RasterRecord) (st : ExtractState) :
  recordOf rt (FromWalker (XStream s)) = Some r →
  fingerprint r ∉ extractedHashes st →
  let filterStr := default "" (Filter s) in
  let dct := JS.includes filterStr "DCTDecode" || JS.includes filterStr "/DCT" in
  let flate := JS.includes filterStr "FlateDecode" || JS.includes filterStr "/Flat"
               || String.eqb filterStr "" in
  let name := default "" (ColorSpace s) in
  let isRGB := JS.includes name "RGB" in
  let isGray := JS.includes name "Gray" || JS.includes name "Grey" in
  let st' := addHash (fingerprint r) st in
  let out := walkXObject rt pageIdx (XStream s) st in
  (dct = true → out = emit (pageIdx + 1) jpg (contents s) st') ∧
  (dct = false → flate = true →
     ∀ bytes layout blob,
       decoded s = Some bytes →
       bitsOf (BitsPerComponent s) = 8 →
       chooseLayout (Z.of_nat (length bytes)) (recWidth r * recHeight r)
         isRGB isGray = Some layout →
       toBlob rt (paintedCanvas (recWidth r) (recHeight r) layout bytes)
         = Some blob →
       out = emit (pageIdx + 1) png blob st') ∧
  (dct = false → flate = true →
     out = st' ∨
     ∃ bytes layout blob,
       decoded s = Some bytes ∧
       toBlob rt (paintedCanvas (recWidth r) (recHeight r) layout bytes) = Some blob ∧
       out = emit (pageIdx + 1) png blob st') ∧
  (dct = false → flate = false → out = emit (pageIdx + 1) bin (contents s) st').
Proof.
  intros Hrec Hfresh filterStr dct flate name isRGB isGray st' out.
  unfold out. rewrite (walkXObject_record rt pageIdx s r st Hrec).
  rewrite decide_False by done. simpl. fold filterStr. fold st'.
  unfold classifyFilter. fold dct. fold flate.
  split; [|split; [|split]].
  - by intros ->.
  - intros -> -> bytes layout blob Hdec Hbits Hlayout Hblob.
    unfold decodeFlate. rewrite Hdec, Hbits. simpl.
    fold name. fold isRGB. fold isGray. by rewrite Hlayout, Hblob.
  - intros -> ->. unfold decodeFlate.
    destruct (decoded s) as [bytes|]; [|by left].
    destruct (negb _); [by left|].
    destruct (chooseLayout _ _ _ _) as [layout|]; [|by left].
    destruct (toBlob rt _) as [blob|] eqn:Hblob; [|by left].
    right. by exists bytes, layout, blob.
  - by intros -> ->.
Qed.

Lemma entry_format_witness :
  walkXObject sampleRuntime 0 (XStream plainJpeg) initialState
    = emit 1 jpg [255;216;255;224] (addHash "2x1_7812410_4" initialState) ∧
  walkXObject sampleRuntime 0 (XStream deflatedGray) initialState
    = emit 1 png (replicate 128 0 ++ [7; 7; 7; 255])
        (addHash "1x1_1313232104_9" initialState) ∧
  walkXObject sampleRuntime 4 (XStream faxImage) initialState
    = emit 5 bin [0;1;2] (addHash "3x2_33_3" initialState).
Proof.
  pose (jpeg := {| recSource := WalkerSourced; recWidth := 2; recHeight := 1;
                   recBytes := [255;216;255;224] |}).
  pose (gray := {| recSource := WalkerSourced; recWidth := 1; recHeight := 1;
                   recBytes := [120;156;99;7;0;0;8;0;8] |}).
  pose (fax := {| recSource := WalkerSourced; recWidth := 3; recHeight := 2;
                  recBytes := [0;1;2] |}).
  assert (∀ k : string, k ∉ extractedHashes initialState) as Hfresh
    by (intros k; simpl; apply not_elem_of_empty).
  split; [|split].
  - destruct (entry_format sampleRuntime 0 plainJpeg jpeg initialState eq_refl
                (Hfresh _)) as (Hjpg & _).
    apply Hjpg. reflexivity.
  - destruct (entry_format sampleRuntime 0 deflatedGray gray initialState eq_refl
                (Hfresh _)) as (_ & Hpng & _).
    apply (Hpng eq_refl eq_refl [7] Gray (replicate 128 0 ++ [7; 7; 7; 255]));
      reflexivity.
  - destruct (entry_format sampleRuntime 4 faxImage fax initialState eq_refl
                (Hfresh _)) as (_ & _ & _ & Hbin).
    apply Hbin; reflexivity.
Defined.

(** C7 as stated fails: a stream with no filter is neither DCT nor deflate,
    and its entry is a .png encoded from the painted pixels, not a .bin
    holding the stream bytes; and a stream whose chain names a deflate
    filter before a DCT one gets a .jpg holding the stream bytes, not a
    .png. *)
Lemma unfiltered_stream_is_png :
  Filter unfilteredGray = None ∧
  classifyFilter (default "" (Filter unfilteredGray)) = Deflate ∧
  contents unfilteredGray = [7] ∧
  zip (walkXObject sampleRuntime 0 (XStream unfilteredGray) initialState)
    = [ {| entrySeq := 1; entryPage := 1; entryExt := png;
           entryData := replicate 128 0 ++ [7; 7; 7; 255] |} ] ∧
  JS.includes (default "" (Filter deflatedJpeg)) "FlateDecode" = true ∧
  zip (walkXObject sampleRuntime 0 (XStream deflatedJpeg) initialState)
    = [ {| entrySeq := 1; entryPage := 1; entryExt := jpg;
           entryData := contents deflatedJpeg |} ].
Proof. repeat split; vm_compute; reflexivity. Qed.

(** C8 (amended).  A record on the deflate branch whose BitsPerComponent is
    a number other than 0 and 8 is skipped: it adds no entry and leaves the
    count as it is, all it leaves behind is its key in the set of hashes
    when it got as far as the lookup; and the walk goes on from there with
    the keys after it and with the pages after its page. *)
Theorem unsupported_depth_skipped (rt : Runtime) (pageIdx : nat)
    (s : PDFRawStream) (b : Z) :
  classifyFilter (default "" (Filter s)) = Deflate →
  BitsPerComponent s ≫= numberValue = Some b →
  b ≠ 0 → b ≠ 8 →
  (∀ st, zip (walkXObject rt pageIdx (XStream s) st) = zip st ∧
         imageCount (walkXObject rt pageIdx (XStream s) st) = imageCount st) ∧
  ∀ key earlier later rest st,
    let before := walkKeys rt pageIdx earlier st in
    let skipped :=
      match recordOf rt (FromWalker (XStream s)) with
      | Some r =>
        if decide (fingerprint r ∈ extractedHashes before) then before
        else addHash (fingerprint r) before
      | None => before
      end in
    walkPages rt (PageXObjects (earlier ++ (key, XStream s) :: later) :: rest)
      pageIdx st
    = walkPages rt rest (S pageIdx) (walkKeys rt pageIdx later skipped).
Proof.
  intros Hfilter Hbits Hb0 Hb8.
  assert (∀ w h st0, decodeFlate rt pageIdx s w h st0 = st0) as Hskip.
  { intros w h st0. unfold decodeFlate, bitsOf. rewrite Hbits.
    unfold JS.or, JS.truthy.
    destruct (Z.eqb_spec b 0) as [|_]; [done|]. simpl.
    destruct (Z.eqb_spec b 8) as [|_]; [done|]. simpl.
    by destruct (decoded s). }
  assert (∀ st, walkXObject rt pageIdx (XStream s) st
                = match recordOf rt (FromWalker (XStream s)) with
                  | Some r =>
                    if decide (fingerprint r ∈ extractedHashes st) then st
                    else addHash (fingerprint r) st
                  | None => st
                  end) as Hwalk.
  { intros st. destruct (recordOf rt (FromWalker (XStream s))) as [r|] eqn:Hrec.
    - rewrite (walkXObject_record rt pageIdx s r st Hrec), Hfilter.
      simpl. by rewrite Hskip.
    - unfold recordOf in Hrec. unfold walkXObject.
      repeat case_match; done. }
  split.
  - intros st. rewrite Hwalk. repeat case_match; done.
  - intros key earlier later rest st before skipped.
    cbn [walkPages]. f_equal. unfold skipped, before, walkKeys.
    rewrite fold_left_app. cbn [fold_left snd]. by rewrite Hwalk.
Qed.

Lemma unsupported_depth_skipped_witness :
  zip (walkXObject sampleRuntime 0 (XStream sixteenBit) initialState) = [] ∧
  zip (walkPages sampleRuntime
         [PageXObjects [("Im0", XStream sixteenBit); ("Im1", XStream unfilteredGray)];
          PageXObjects [("Im0", XStream plainJpeg)]]
         0 initialState)
  = [ {| entrySeq := 1; entryPage := 1; entryExt := png;
         entryData := replicate 128 0 ++ [7; 7; 7; 255] |};
      {| entrySeq := 2; entryPage := 2; entryExt := jpg;
         entryData := [255;216;255;224] |} ].
Proof.
  destruct (unsupported_depth_skipped sampleRuntime 0 sixteenBit 16)
    as [Hskip Hnext]; [reflexivity | reflexivity | lia | lia |].
  split.
  - apply (Hskip initialState).
  - pose proof (Hnext "Im0" [] [("Im1", XStream unfilteredGray)]
                  [PageXObjects [("Im0", XStream plainJpeg)]] initialState)
      as Hwalk.
    cbv zeta in Hwalk. cbn [app] in Hwalk. rewrite Hwalk.
    vm_compute. reflexivity.
Defined.

(** C8 as stated fails: a deflated record that declares zero bits per
    component is read as an 8-bit one and gets its entry. *)
Lemma zero_depth_not_skipped :
  classifyFilter (default "" (Filter zeroDepth)) = Deflate ∧
  BitsPerComponent zeroDepth ≫= numberValue = Some 0 ∧
  bitsOf (BitsPerComponent zeroDepth) = 8 ∧
  zip (walkXObject sampleRuntime 0 (XStream zeroDepth) initialState)
    = [ {| entrySeq := 1; entryPage := 1; entryExt := png;
           entryData := replicate 128 0 ++ [7; 7; 7; 255] |} ].
Proof. repeat split; vm_compute; reflexivity. Qed.

(** ** Compression quality *)

Lemma compressPages_quality options pages out :
  compressPages options pages = Some out →
  Forall (λ page, jpegQuality page = encoderQuality options) out.
Proof.
  revert out. induction pages as [|p pages IH]; intros out Hout; simpl in Hout.
  - injection Hout as <-. constructor.
  - destruct p as [|p]; [done|].
    destruct (compressPages options pages) as [rest|]; [|done].
    simpl in Hout. injection Hout as <-.
    constructor; [done | by apply IH].
Qed.

Lemma compressPages_length options pages out :
  compressPages options pages = Some out → length out = length pages.
Proof.
  revert out. induction pages as [|p pages IH]; intros out Hout; simpl in Hout.
  - by injection Hout as <-.
  - destruct p as [|p]; [done|].
    destruct (compressPages options pages) as [rest|]; [|done].
    simpl in Hout. injection Hout as <-. simpl. by rewrite (IH rest).
Qed.

(** C5.  A compressed document has one encoded page for each page of the
    input, and every one of them is encoded at max(imageQuality/100, 0.30)
    when fullPageMode is off, which is never below 0.30 and is 0.30 for
    every request of 30 or less, and at exactly imageQuality/100 when
    fullPageMode is on.  (Qualities are exact rationals here; rounding to
    doubles is monotone, so the maximum is the same one.) *)
Theorem quality_floor (d : Document) (options : CompressionOptions)
    (out : CompressedPDF) :
  compressPDF d options = Some out →
  (∃ pages, jsView d = Some pages ∧ length (outPages out) = length pages) ∧
  Forall (λ page,
    let quality := (imageQuality options / 100)%Q in
    if fullPageMode options then jpegQuality page = quality
    else jpegQuality page = Qmax quality (3 # 10) ∧
         (3 # 10 <= jpegQuality page)%Q ∧
         (quality <= jpegQuality page)%Q ∧
         ((imageQuality options <= 30)%Q → (jpegQuality page == 3 # 10)%Q))
    (outPages out).
Proof.
  unfold compressPDF. intros Hout.
  destruct (jsView d) as [pages|]; [|done]. simpl in Hout.
  destruct (compressPages options pages) as [encoded|] eqn:Hpages; [|done].
  simpl in Hout. injection Hout as <-. simpl.
  split.
  { exists pages. split; [done|]. by apply (compressPages_length options). }
  eapply Forall_impl; [by apply (compressPages_quality options pages)|].
  intros page ->. unfold encoderQuality. simpl.
  destruct (fullPageMode options); [done|].
  split; [done|]. split; [apply Q.le_max_r|]. split; [apply Q.le_max_l|].
  intros Hlow. apply Q.max_r.
  apply Qle_shift_div_r; [done|].
  eapply Qle_trans; [exact Hlow|]. unfold Qle. simpl. lia.
Qed.

Lemma quality_floor_witness :
  ∃ out, compressPDF twoBlankPages lowestBalanced = Some out ∧
    map jpegQuality (outPages out) = [(3 # 10)%Q; (3 # 10)%Q] ∧
    Forall (λ page, 3 # 10 <= jpegQuality page)%Q (outPages out).
Proof.
  destruct (compressPDF twoBlankPages lowestBalanced) as [out|] eqn:Hout;
    [|discriminate Hout].
  exists out.
  destruct (quality_floor twoBlankPages lowestBalanced out Hout) as [_ Hfloor].
  split; [reflexivity|]. split.
  - vm_compute in Hout. injection Hout as <-. reflexivity.
  - eapply Forall_impl; [exact Hfloor|]. simpl. intros page Hpage. apply Hpage.
Defined.

(** ** Pagination *)

Lemma ceiling_bounds (H P : Z) :
  0 < P →
  let c := Qceiling (inject_Z H / inject_Z P) in
  H ≤ c * P ∧ (c - 1) * P < H.
Proof.
  intros HP c.
  assert (0 < inject_Z P)%Q as HPq
    by (change (inject_Z 0 < inject_Z P)%Q; rewrite <- Zlt_Qlt; exact HP).
  assert (¬ (inject_Z P == 0)%Q) as Hnz.
  { intros Heq. rewrite Heq in HPq. by apply Qlt_irrefl in HPq. }
  pose proof (Qle_ceiling (inject_Z H / inject_Z P)) as Hup.
  pose proof (Qceiling_lt (inject_Z H / inject_Z P)) as Hlow.
  fold c in Hup, Hlow.
  assert (inject_Z H / inject_Z P * inject_Z P == inject_Z H)%Q as Hcancel.
  { unfold Qdiv. rewrite <- Qmult_assoc, (Qmult_comm (/ _)), Qmult_inv_r by done.
    apply Qmult_1_r. }
  split.
  - rewrite Zle_Qle, inject_Z_mult.
    apply (Qmult_le_compat_r _ _ (inject_Z P)) in Hup; [|by apply Qlt_le_weak].
    by rewrite Hcancel in Hup.
  - rewrite Zlt_Qlt, inject_Z_mult.
    apply (Qmult_lt_compat_r _ _ (inject_Z P)) in Hlow; [|done].
    by rewrite Hcancel in Hlow.
Qed.

(** [totalPages] is max(1, ceil(H/P)): the closed form on integers, and the
    bounds that make it the ceiling. *)
Lemma totalPages_spec (H P : Z) :
  0 < P → 0 ≤ H →
  let n := totalPages H P in
  n = Z.max 1 ((H + P - 1) / P) ∧
  1 ≤ n ∧ H ≤ P * n ∧ (1 < n → P * (n - 1) < H).
Proof.
  intros HP HH n.
  destruct (ceiling_bounds H P HP) as [Hup Hlow].
  set (c := Qceiling (inject_Z H / inject_Z P)) in *.
  assert (c = (H + P - 1) / P) as Hc.
  { apply (Z.div_unique _ _ _ (H + P - 1 - P * c)); lia. }
  assert (n = Z.max 1 c) as Hn by reflexivity.
  split; [by rewrite Hn, Hc|].
  destruct (Z.max_spec 1 c) as [[Hlt Hmax]|[Hge Hmax]]; rewrite <- Hn in Hmax.
  - rewrite Hmax. split; [lia|]. split; [lia|]. intros _. lia.
  - rewrite Hmax. split; [lia|]. split; [nia|]. lia.
Qed.

(** C6.  A capture of content height [H], cut for a page height [P], gives
    max(1, ceil(H/P)) slices; each is a white canvas of one page's size in
    pixels (the page size at the capture's scale of 2); every slice but the
    last draws a full page of rows, and the last draws H - P*(count - 1)
    rows of content, that is twice as many rows of the capture. *)
Theorem pagination (pageW P H : Z) (quality : Q) :
  0 < P → 0 ≤ H →
  let slices := slicePages pageW P H quality in
  let count := Z.of_nat (length slices) in
  count = Z.max 1 ((H + P - 1) / P) ∧
  count = Z.max 1 (Qceiling (inject_Z H / inject_Z P)) ∧
  (1 ≤ count ∧ H ≤ P * count ∧ (1 < count → P * (count - 1) < H)) ∧
  Forall (λ s, sliceCanvasWidth s = pageW * 2 ∧ sliceCanvasHeight s = P * 2 ∧
               sliceFill s = "#ffffff") slices ∧
  (∀ i s, slices !! i = Some s → Z.of_nat i < count - 1 →
     srcY s = Z.of_nat i * P * 2 ∧ srcH s = P * 2 ∧ sliceDrawn s = true) ∧
  ∃ final, last slices = Some final ∧
    srcY final = (count - 1) * P * 2 ∧
    srcH final = (H - P * (count - 1)) * 2 ∧
    srcH final = H * 2 - sliceCanvasHeight final * (count - 1) ∧
    sliceDrawn final = (0 <? H).
Proof.
  intros HP HH slices count.
  destruct (totalPages_spec H P HP HH) as (Hformula & Hone & Hup & Hlow).
  set (n := totalPages H P) in *.
  assert (count = n) as Hcount.
  { unfold count, slices, slicePages. rewrite length_map, length_seq.
    fold n. lia. }
  rewrite Hcount.
  assert (∀ i s, slices !! i = Some s →
            s = slicePage pageW P (H * 2) quality i ∧ Z.of_nat i < n) as Hslice.
  { intros i s Hi. unfold slices, slicePages in Hi. fold n in Hi.
    rewrite list_lookup_fmap in Hi.
    destruct (seq 0 (Z.to_nat n) !! i) as [j|] eqn:Hj; [|done].
    apply lookup_seq in Hj as [-> Hlt]. simpl in Hi.
    injection Hi as <-. split; [done | lia]. }
  split; [exact Hformula|]. split; [done|]. split; [done|].
  split; [|split].
  - apply Forall_lookup. intros i s Hi.
    destruct (Hslice i s Hi) as [-> _]. done.
  - intros i s Hi Hbefore.
    destruct (Hslice i s Hi) as [-> _]. simpl.
    assert (Z.min (P * 2) (H * 2 - Z.of_nat i * P * 2) = P * 2) as -> by nia.
    split; [done|]. split; [done|]. apply Z.ltb_lt. lia.
  - exists (slicePage pageW P (H * 2) quality (Z.to_nat (n - 1))).
    split.
    + unfold slices, slicePages. fold n.
      replace (Z.to_nat n) with (S (Z.to_nat (n - 1))) by lia.
      rewrite seq_S, map_app. simpl. by rewrite last_snoc.
    + simpl. rewrite Z2Nat.id by lia.
      assert (Z.min (P * 2) (H * 2 - (n - 1) * P * 2) = (H - P * (n - 1)) * 2)
        as -> by nia.
      split; [done|]. split; [done|]. split; [lia|].
      destruct (Z.ltb_spec 0 H) as [Hpos|Hzero].
      * apply Z.ltb_lt. nia.
      * apply Z.ltb_ge. nia.
Qed.

Lemma pagination_witness :
  let slices := renderHtmlToPageImages 3000 (92 # 100) in
  length slices = 3%nat ∧
  ∃ final, last slices = Some final ∧ srcH final = (3000 - 1123 * (3 - 1)) * 2.
Proof.
  intros slices.
  destruct (pagination A4_WIDTH_PX A4_HEIGHT_PX 3000 (92 # 100))
    as (Hcount & _ & _ & _ & _ & final & Hlast & _ & Hdrawn & _);
    [reflexivity | discriminate |].
  fold (renderHtmlToPageImages 3000 (92 # 100)) in Hcount, Hlast.
  fold slices in Hcount, Hlast.
  split; [reflexivity|].
  exists final. split; [exact Hlast|].
  rewrite Hdrawn. reflexivity.
Defined.

(** ** protectPDF *)

(** C10.  The password has no part in the result: any two passwords give the
    same output for the same file, and that output is the loaded document,
    its producer set to 'PDFree - Protected', saved again. *)
Theorem protect_ignores_password (lib : PdfLib) (file : list Z) (pw1 pw2 : string) :
  protectPDF lib file pw1 = protectPDF lib file pw2 ∧
  protectPDF lib file pw1
    = (λ pdf, save lib (setProducer lib "PDFree - Protected" pdf)) <$> load lib file.
Proof.
  split; [reflexivity|].
  unfold protectPDF. by destruct (load lib file).
Qed.

(** * Further properties of the code *)

(** ** The sample hash *)

Lemma toInt32_range z : - 2 ^ 31 ≤ JS.toInt32 z < 2 ^ 31.
Proof.
  unfold JS.toInt32.
  pose proof (Z.mod_pos_bound (z + 2 ^ 31) (2 ^ 32)). lia.
Qed.

Lemma toInt32_congr a b : (a - b) mod 2 ^ 32 = 0 → JS.toInt32 a = JS.toInt32 b.
Proof.
  intros H. unfold JS.toInt32. f_equal.
  apply Z.mod_divide in H; [|lia]. destruct H as [k Hk].
  replace (a + 2 ^ 31) with (b + 2 ^ 31 + k * 2 ^ 32) by lia.
  apply Z_mod_plus_full.
Qed.

Lemma toInt32_diff z : (JS.toInt32 z - z) mod 2 ^ 32 = 0.
Proof.
  unfold JS.toInt32.
  rewrite (Z.mod_eq (z + 2 ^ 31) (2 ^ 32)) by lia.
  replace (z + 2 ^ 31 - 2 ^ 32 * ((z + 2 ^ 31) / 2 ^ 32) - 2 ^ 31 - z)
    with (- ((z + 2 ^ 31) / 2 ^ 32) * 2 ^ 32) by lia.
  apply Z_mod_mult.
Qed.

Lemma toInt32_fixed z : - 2 ^ 31 ≤ z < 2 ^ 31 → JS.toInt32 z = z.
Proof. intros H. unfold JS.toInt32. rewrite Z.mod_small; lia. Qed.

Lemma hashStep_base31 h b : hashStep h b = JS.toInt32 (31 * h + b).
Proof.
  unfold hashStep, JS.shl. apply toInt32_congr.
  rewrite Z.shiftl_mul_pow2 by lia.
  pose proof (toInt32_diff (JS.toInt32 h * 2 ^ 5)) as H1.
  pose proof (toInt32_diff h) as H2.
  apply Z.mod_divide in H1; [|lia]. apply Z.mod_divide in H2; [|lia].
  destruct H1 as [k1 Hk1], H2 as [k2 Hk2].
  apply Z.mod_divide; [lia|]. exists (k1 + 32 * k2). lia.
Qed.

Lemma hash_fold_congr l a a' :
  (a - a') mod 2 ^ 32 = 0 →
  (fold_left hashStep l a - fold_left (λ h b, 31 * h + b) l a') mod 2 ^ 32 = 0.
Proof.
  revert a a'. induction l as [|b l IH]; intros a a' Ha; simpl; [done|].
  apply IH. rewrite hashStep_base31.
  pose proof (toInt32_diff (31 * a + b)) as H1.
  apply Z.mod_divide in H1; [|lia]. apply Z.mod_divide in Ha; [|lia].
  destruct H1 as [k1 Hk1], Ha as [k2 Hk2].
  apply Z.mod_divide; [lia|]. exists (k1 + 31 * k2). lia.
Qed.

Lemma hash_fold_range l a :
  - 2 ^ 31 ≤ a < 2 ^ 31 → - 2 ^ 31 ≤ fold_left hashStep l a < 2 ^ 31.
Proof.
  revert a. induction l as [|b l IH]; intros a Ha; simpl; [done|].
  apply IH. rewrite hashStep_base31. apply toInt32_range.
Qed.

Lemma take_min_length {A} (n : nat) (l : list A) :
  take (n `min` length l) l = take n l.
Proof.
  destruct (Nat.le_ge_cases n (length l)) as [Hle|Hge].
  - by rewrite Nat.min_l.
  - rewrite Nat.min_r by done. by rewrite !take_ge.
Qed.

(** X1.  The walker's hash of a stream is the base-31 polynomial of its first
    100 bytes, wrapped to a signed 32-bit integer: the shift, subtraction and
    [| 0] of the loop do nothing else. *)
Theorem sampleHash_base31 (streamBytes : list Z) :
  sampleHash streamBytes
    = JS.toInt32 (fold_left (λ h b, 31 * h + b) (take 100 streamBytes) 0) ∧
  - 2 ^ 31 ≤ sampleHash streamBytes < 2 ^ 31.
Proof.
  unfold sampleHash. rewrite take_min_length.
  assert (- 2 ^ 31 ≤ fold_left hashStep (take 100 streamBytes) 0 < 2 ^ 31)
    as Hrange by (apply hash_fold_range; lia).
  split; [|exact Hrange].
  rewrite <- (toInt32_fixed _ Hrange) at 1.
  apply toInt32_congr, hash_fold_congr. done.
Qed.

(** ** Entry names *)

Lemma pretty_N_go_chars (x : N) (s : string) :
  "_"%char ∉ chars s → "_"%char ∉ chars (pretty_N_go x s).
Proof.
  revert s. induction (N.lt_wf_0 x) as [x _ IH]; intros s Hs.
  destruct (decide (x = 0)%N) as [->|Hx].
  - by rewrite pretty_N_go_0.
  - rewrite pretty_N_go_step by lia.
    apply IH; [apply N.div_lt; lia|].
    unfold chars. simpl. apply not_elem_of_cons. split; [|exact Hs].
    unfold pretty_N_char. repeat case_match; discriminate.
Qed.

Lemma pretty_nat_chars (n : nat) : "_"%char ∉ chars (pretty n).
Proof.
  unfold pretty, pretty_nat, pretty, pretty_N.
  case_decide.
  - unfold chars. simpl. apply not_elem_of_cons. split; [discriminate|].
    apply not_elem_of_nil.
  - apply pretty_N_go_chars. apply not_elem_of_nil.
Qed.

Lemma underscore_prefix (a b r1 r2 : string) :
  "_"%char ∉ chars a → "_"%char ∉ chars b →
  a +:+ String "_" r1 = b +:+ String "_" r2 → a = b.
Proof.
  unfold chars.
  revert b. induction a as [|c a IH]; intros [|c' b] Ha Hb Heq; simpl in *.
  - done.
  - injection Heq as <- _. apply not_elem_of_cons in Hb as [Hb _]. done.
  - injection Heq as -> _. apply not_elem_of_cons in Ha as [Ha _]. done.
  - injection Heq as -> Heq. f_equal.
    apply not_elem_of_cons in Ha as [_ Ha].
    apply not_elem_of_cons in Hb as [_ Hb].
    by apply (IH b).
Qed.

Lemma entryName_seq (e1 e2 : ZipEntry) :
  entryName e1 = entryName e2 → entrySeq e1 = entrySeq e2.
Proof.
  unfold entryName. intros Heq. simpl in Heq.
  injection Heq as Heq.
  apply underscore_prefix in Heq; [|apply pretty_nat_chars..].
  by apply (inj pretty) in Heq.
Qed.

Lemma entryName_NoDup (entries : list ZipEntry) :
  NoDup (map entrySeq entries) → NoDup (map entryName entries).
Proof.
  induction entries as [|e entries IH]; simpl; [constructor|].
  rewrite !NoDup_cons. intros [Hnotin Hrest]. split; [|by apply IH].
  intros Hin. apply Hnotin.
  apply list_elem_of_fmap in Hin as (e' & Hname & He').
  apply list_elem_of_fmap. exists e'. split; [by apply entryName_seq | done].
Qed.

(** X2.  No two entries of a run have the same name, so no [zip.file] call
    ever replaces an earlier entry of the archive. *)
Theorem archive_names_distinct (rt : Runtime) (d : Document) :
  NoDup (map entryName (zip (extractRun rt d).1)) ∧
  match extractPDFImages rt d with
  | Resolves archive => NoDup (map entryName archive)
  | Rejects _ => True
  end.
Proof.
  assert (NoDup (map entryName (zip (extractRun rt d).1))) as Hnames.
  { destruct (extractRun_numbered rt d) as [bound Hrun].
    apply entryName_NoDup. rewrite (numbered_seq _ _ Hrun). apply NoDup_seq. }
  split; [exact Hnames|].
  unfold extractPDFImages.
  destruct (extractRun rt d) as [st [|]]; [|done].
  by destruct (imageCount st =? 0)%nat.
Qed.

(** ** Page numbers and sizes of the entries *)

Lemma steps_entries (P : ZipEntry → Prop) page st st' :
  (∀ e data n, P {| entrySeq := n; entryPage := page; entryExt := e;
                    entryData := data |}) →
  steps page st st' → Forall P (zip st) → Forall P (zip st').
Proof.
  intros HP Hsteps. induction Hsteps as [|st1 st2 st3 Hstep _ IH]; [done|].
  intros H1. apply IH. destruct Hstep; simpl; [|done..].
  apply Forall_app. split; [done|]. repeat constructor. apply HP.
Qed.

Section EntryFacts.

Variable rt : Runtime.

Lemma walkPages_pages pages pageIdx st :
  Forall (λ e, 1 ≤ entryPage e ≤ pageIdx + length pages)%nat (zip st) →
  Forall (λ e, 1 ≤ entryPage e ≤ pageIdx + length pages)%nat
    (zip (walkPages rt pages pageIdx st)).
Proof.
  revert pageIdx st.
  induction pages as [|p pages IH]; intros pageIdx st Hst; simpl; [done|].
  simpl in Hst.
  replace (pageIdx + S (length pages))%nat with (S pageIdx + length pages)%nat
    in * by lia.
  destruct p as [| | |entries]; try done; try by apply IH.
  apply IH.
  eapply (steps_entries _ (pageIdx + 1)); [| apply walkKeys_steps | exact Hst].
  intros. simpl. lia.
Qed.

Lemma harvestPages_pages pages pageNum st :
  (1 ≤ pageNum)%nat →
  Forall (λ e, 1 ≤ entryPage e < pageNum + length pages)%nat (zip st) →
  Forall (λ e, 1 ≤ entryPage e < pageNum + length pages)%nat
    (zip (harvestPages rt pages pageNum st).1).
Proof.
  revert pageNum st.
  induction pages as [|p pages IH]; intros pageNum st Hone Hst; simpl; [done|].
  simpl in Hst.
  replace (pageNum + S (length pages))%nat with (S pageNum + length pages)%nat
    in * by lia.
  destruct p as [|p]; simpl; [done|].
  apply (IH (S pageNum)); [lia|].
  eapply (steps_entries _ pageNum); [| | exact Hst].
  - intros. simpl. lia.
  - eapply steps_trans; [|apply harvestPage_steps]. apply steps_log, steps_refl.
Qed.

Lemma emitIfLarge_large pageNum blob st :
  Forall largePng (zip st) → Forall largePng (zip (emitIfLarge pageNum blob st)).
Proof.
  intros Hst. unfold emitIfLarge.
  destruct blob as [b|]; [|done].
  destruct (Z.ltb_spec 100 (Z.of_nat (length b))); [|done].
  simpl. apply Forall_app. split; [done|]. repeat constructor. simpl. lia.
Qed.

Lemma harvestImage_large pageNum img st :
  Forall largePng (zip st) → Forall largePng (zip (harvestImage rt pageNum img st)).
Proof.
  intros Hst. unfold harvestImage.
  repeat case_match; try done; by apply emitIfLarge_large.
Qed.

Lemma harvestOp_large p pageNum acc i :
  Forall largePng (zip acc.2) →
  Forall largePng (zip (harvestOp rt p pageNum acc i).2).
Proof.
  destruct acc as [names st]. simpl. intros Hst. unfold harvestOp.
  repeat case_match; simpl; try done. by apply harvestImage_large.
Qed.

Lemma harvestPage_large p pageNum st :
  Forall largePng (zip st) → Forall largePng (zip (harvestPage rt p pageNum st)).
Proof.
  intros Hst. unfold harvestPage. simpl.
  generalize (seq 0 (length (fnArray p))) as idx.
  assert (∀ idx acc, Forall largePng (zip acc.2) →
            Forall largePng (zip (fold_left (harvestOp rt p pageNum) idx acc).2))
    as Hfold.
  { induction idx as [|i idx IH]; intros acc Hacc; simpl; [done|].
    apply IH. by apply harvestOp_large. }
  intros idx. by apply Hfold.
Qed.

Lemma harvestPages_large pages pageNum st :
  Forall largePng (zip st) →
  Forall largePng (zip (harvestPages rt pages pageNum st).1).
Proof.
  revert pageNum st.
  induction pages as [|p pages IH]; intros pageNum st Hst; simpl; [done|].
  destruct p as [|p]; simpl; [done|].
  apply IH. by apply harvestPage_large.
Qed.

Lemma walkPages_stops before after pageIdx st :
  walkPages rt (before ++ PageThrows :: after) pageIdx st
  = walkPages rt before pageIdx st.
Proof.
  revert pageIdx st.
  induction before as [|p before IH]; intros pageIdx st; simpl; [done|].
  destruct p; by rewrite ?IH.
Qed.

Lemma harvestOp_names p pageNum acc i :
  acc.1 ⊆ (harvestOp rt p pageNum acc i).1.
Proof.
  destruct acc as [names st]. unfold harvestOp. simpl.
  repeat case_match; simpl; set_solver.
Qed.

Lemma harvestOps_names p pageNum idx acc :
  acc.1 ⊆ (fold_left (harvestOp rt p pageNum) idx acc).1.
Proof.
  revert acc. induction idx as [|i idx IH]; intros acc; simpl; [done|].
  etrans; [apply harvestOp_names | apply IH].
Qed.

Lemma harvestOp_registers p pageNum acc i fn name :
  fnArray p !! i = Some fn → isPaintImage fn = true →
  argsArray p !! i = Some (Some name) → name ≠ "" →
  name ∈ (harvestOp rt p pageNum acc i).1.
Proof.
  intros Hfn Hpaint Hargs Hname.
  destruct acc as [names st]. unfold harvestOp. rewrite Hfn, Hargs. simpl.
  rewrite Hpaint.
  destruct (String.eqb_spec name ""); [done|].
  repeat case_match; simpl; set_solver.
Qed.

Lemma harvestOp_known p pageNum names st j name :
  argsArray p !! j = Some (Some name) → name ∈ names →
  harvestOp rt p pageNum (names, st) j = (names, st).
Proof.
  intros Hargs Hin. unfold harvestOp. rewrite Hargs. simpl.
  destruct (isPaintImage _); [|done].
  destruct (String.eqb name ""); [done|].
  by rewrite decide_True.
Qed.

End EntryFacts.

(** X3.  Every entry carries a page number of the document: between 1 and
    the number of pages pdf-lib shows when the walk emitted something, and
    between 1 and the number of pages pdf.js shows otherwise. *)
Theorem entry_pages_in_range (rt : Runtime) (d : Document) :
  let walked := method1 rt d initialState in
  let limit := match zip walked with
               | [] => length (default [] (jsView d))
               | _ :: _ => length (default [] (libView d))
               end in
  Forall (λ e, 1 ≤ entryPage e ≤ limit)%nat (zip (extractRun rt d).1).
Proof.
  intros walked limit.
  assert (Forall (λ e, 1 ≤ entryPage e ≤ length (default [] (libView d)))%nat
            (zip walked)) as Hwalk.
  { unfold walked, method1. destruct (libView d) as [pages|]; simpl; [|constructor].
    apply (walkPages_pages rt pages 0). constructor. }
  pose proof (walked_count rt d) as Hcount. fold walked in Hcount.
  unfold extractRun. fold walked. unfold limit.
  destruct (zip walked) as [|e es] eqn:Hzip.
  - assert (imageCount walked = 0%nat) as Hz by by apply Hcount.
    unfold method2. rewrite Hz. simpl.
    destruct (jsView d) as [pages|]; simpl; [|by rewrite Hzip].
    eapply Forall_impl.
    + apply (harvestPages_pages rt pages 1); [lia|]. simpl. rewrite Hzip.
      constructor.
    + simpl. intros. lia.
  - assert (imageCount walked ≠ 0%nat) as Hnz.
    { intros Hz. apply Hcount in Hz. congruence. }
    rewrite (method2_skipped rt d walked Hnz). simpl. by rewrite Hzip.
Qed.

(** X4.  When the walk emits nothing, every entry of the run comes from the
    harvest, and each is a .png of more than 100 bytes: smaller blobs are
    dropped. *)
Theorem harvested_entries_large_png (rt : Runtime) (d : Document) :
  zip (method1 rt d initialState) = [] →
  Forall largePng (zip (extractRun rt d).1).
Proof.
  intros Hzip. unfold extractRun, method2.
  destruct (imageCount _ =? 0)%nat; simpl; [|by rewrite Hzip].
  destruct (jsView d) as [pages|]; simpl; [|by rewrite Hzip].
  apply harvestPages_large. simpl. by rewrite Hzip.
Qed.

Lemma harvested_entries_large_png_witness :
  Forall largePng (zip (extractRun sampleRuntime walkedThenHarvested).1).
Proof.
  apply (harvested_entries_large_png sampleRuntime walkedThenHarvested).
  reflexivity.
Defined.

(** X5.  A page whose resources raise ends the walk: the pages after it are
    never looked at, and the operation gives what it gives for the document
    cut before that page. *)
Theorem walk_stops_at_raising_page (rt : Runtime) (before after : list LibPage)
    (js : option (list PageLoad)) :
  extractPDFImages rt
    {| libView := Some (before ++ PageThrows :: after); jsView := js |}
  = extractPDFImages rt {| libView := Some before; jsView := js |}.
Proof.
  unfold extractPDFImages, extractRun, method1. simpl.
  by rewrite walkPages_stops.
Qed.

(** X6.  On one page, an image name that a paint operation has already named
    is not looked at again: the later operation changes neither the archive
    nor the set of names. *)
Theorem image_name_harvested_once (rt : Runtime) (p : PdfjsPage) (pageNum : nat)
    (st : ExtractState) (i j : nat) (fn : Z) (name : string) :
  (i < j)%nat →
  fnArray p !! i = Some fn → isPaintImage fn = true →
  argsArray p !! i = Some (Some name) → name ≠ "" →
  argsArray p !! j = Some (Some name) →
  let before := fold_left (harvestOp rt p pageNum) (seq 0 j) (∅, st) in
  harvestOp rt p pageNum before j = before.
Proof.
  intros Hij Hfn Hpaint Hargsi Hname Hargsj before.
  assert (name ∈ before.1) as Hin.
  { unfold before.
    replace j with (i + S (j - S i))%nat by lia.
    rewrite seq_app, fold_left_app. simpl.
    apply harvestOps_names.
    by eapply harvestOp_registers. }
  revert Hin. generalize before. intros [names st'] Hin.
  by apply (harvestOp_known _ _ _ _ _ _ name).
Qed.

Lemma image_name_harvested_once_witness :
  let before := harvestOp sampleRuntime paintsTwice 1 (∅, initialState) 0 in
  length (zip before.2) = 1%nat ∧
  harvestOp sampleRuntime paintsTwice 1 before 1 = before.
Proof.
  intros before. split; [vm_compute; reflexivity|].
  apply (image_name_harvested_once sampleRuntime paintsTwice 1 initialState
           0 1 85 "img_p0_1"); [lia | reflexivity | reflexivity | reflexivity
                               | discriminate | reflexivity].
Defined.

(** ** Painted canvases *)

Lemma rgbStep_length data rgba t : length (rgbStep data rgba t) = length rgba.
Proof. unfold rgbStep. case_decide; [|done]. by rewrite !length_insert. Qed.

Lemma grayStep_length data rgba t : length (grayStep data rgba t) = length rgba.
Proof. unfold grayStep. case_decide; [|done]. by rewrite !length_insert. Qed.

Lemma fold_length (pixelStep : list Z → nat → list Z) idx rgba :
  (∀ a t, length (pixelStep a t) = length a) →
  length (fold_left pixelStep idx rgba) = length rgba.
Proof.
  intros Hstep. revert rgba.
  induction idx as [|t idx IH]; intros rgba; simpl; [done|].
  by rewrite IH, Hstep.
Qed.

(** X7.  Whenever one of the two if-chains picks a channel layout for an
    image of positive size, the canvas is painted with exactly
    width*height*4 samples, so [new ImageData(rgba, w, h)] gets a buffer of
    the length it asks for. *)
Theorem painted_canvas_size (w h : Z) (layout : ChannelLayout) (data : list Z)
    (isRGB isGray : bool) :
  0 < w → 0 < h →
  chooseLayout (Z.of_nat (length data)) (w * h) isRGB isGray = Some layout ∨
  chooseLayoutRaw (Z.of_nat (length data)) (w * h) = Some layout →
  Z.of_nat (length (canvasPixels (paintedCanvas w h layout data))) = w * h * 4.
Proof.
  intros Hw Hh Hlayout. simpl. unfold toRGBA.
  assert (0 ≤ w * h) as Hpc by nia.
  destruct layout.
  - rewrite fold_length by apply rgbStep_length.
    unfold newClampedArray. rewrite length_replicate. lia.
  - rewrite fold_length by apply grayStep_length.
    unfold newClampedArray. rewrite length_replicate. lia.
  - destruct Hlayout as [Hlayout|Hlayout].
    + unfold chooseLayout in Hlayout.
      repeat case_match; try done. lia.
    + unfold chooseLayoutRaw in Hlayout.
      repeat case_match; try done. lia.
Qed.

Lemma painted_canvas_size_witness :
  Z.of_nat (length (canvasPixels (paintedCanvas 2 2 RGB [10;20;30;40]))) = 2 * 2 * 4.
Proof.
  apply (painted_canvas_size 2 2 RGB [10;20;30;40] true false);
    [reflexivity | reflexivity | left; reflexivity].
Defined.










(** ** The harvester's keys *)

(** X9.  The harvester tells images apart by size alone: after a bitmap, any
    bitmap of the same width and height is dropped whatever its pixels; and
    after a raw buffer, any raw buffer of the same width, height and length
    is dropped whatever its bytes. *)
Theorem harvested_same_size_suppressed (rt : Runtime) (img1 img2 : ImgData)
    (r1 r2 : RasterRecord) :
  recordOf rt (FromHarvester img1) = Some r1 →
  recordOf rt (FromHarvester img2) = Some r2 →
  recSource r1 = recSource r2 →
  recWidth r1 = recWidth r2 → recHeight r1 = recHeight r2 →
  (recSource r1 = HarvestedRaw → length (recBytes r1) = length (recBytes r2)) →
  ∀ page1 page2 st st',
    extractedHashes (harvestImage rt page1 img1 st) ⊆ extractedHashes st' →
    harvestImage rt page2 img2 st' = st'.
Proof.
  intros Hrec1 Hrec2 Hsrc Hw Hh Hlen page1 page2 st st' Hsub.
  assert (fingerprint r1 = fingerprint r2) as Hkey.
  { assert (recSource r1 ≠ WalkerSourced) as Hnw.
    { unfold recordOf in Hrec1. repeat case_match; simplify_eq; done. }
    unfold fingerprint, rawHashKey. rewrite <- Hsrc, Hw, Hh.
    destruct (recSource r1); [done | done |]. by rewrite Hlen. }
  apply (processSource_known rt page2 (FromHarvester img2) r2 st' Hrec2).
  rewrite <- Hkey. apply Hsub.
  apply (processSource_registers rt page1 (FromHarvester img1) r1 st Hrec1).
Qed.

Lemma harvested_same_size_suppressed_witness :
  let after := harvestImage sampleRuntime 1 bitmap2x2 initialState in
  length (zip after) = 1%nat ∧
  harvestImage sampleRuntime 2 otherBitmap2x2 after = after.
Proof.
  intros after. split; [vm_compute; reflexivity|].
  pose (r1 := {| recSource := HarvestedBitmap; recWidth := 2; recHeight := 2;
                 recBytes := [255;0;0;255; 0;255;0;255; 0;0;255;255; 9;9;9;255] |}).
  pose (r2 := {| recSource := HarvestedBitmap; recWidth := 2; recHeight := 2;
                 recBytes := [1;2;3;255; 4;5;6;255; 7;8;9;255; 0;0;0;255] |}).
  assert (recSource r1 = HarvestedRaw → length (recBytes r1) = length (recBytes r2))
    as Hlen by discriminate.
  apply (harvested_same_size_suppressed sampleRuntime bitmap2x2 otherBitmap2x2
           r1 r2 eq_refl eq_refl eq_refl eq_refl eq_refl Hlen
           1%nat 2%nat initialState after).
  reflexivity.
Defined.

(** ** compressPDF *)

Lemma compressPages_None options pages :
  compressPages options pages = None ↔ PageFault ∈ pages.
Proof.
  induction pages as [|p pages IH]; simpl.
  - split; [done | intros H; by apply elem_of_nil in H].
  - destruct p as [|p].
    + split; [intros _; left | done].
    + destruct (compressPages options pages) as [out|]; simpl.
      * split; [done|]. intros H. apply elem_of_cons in H as [H|H]; [done|].
        by apply IH in H.
      * split; [|done]. intros _. right. by apply IH.
Qed.

(** X10.  No page is skipped to save the rest: a document that pdf.js
    cannot load, or one of whose pages it cannot load, makes the compression
    reject whatever the options; and a compression that resolves has loaded
    every page and, for a document with pages, holds one page for each of
    them. *)
Theorem compress_never_skips_a_page (d : Document) (options : CompressionOptions) :
  (jsView d = None ∨ (∃ pages, jsView d = Some pages ∧ PageFault ∈ pages) →
     compressPDF d options = None) ∧
  ∀ out, compressPDF d options = Some out →
    ∃ pages, jsView d = Some pages ∧ (PageFault ∉ pages) ∧
      (pages ≠ [] → length (outPages out) = length pages).
Proof.
  unfold compressPDF. split.
  - intros [-> | (pages & -> & Hin)]; [done|]. simpl.
    apply (compressPages_None options) in Hin. by rewrite Hin.
  - intros out Hout. destruct (jsView d) as [pages|]; [|done]. simpl in Hout.
    destruct (compressPages options pages) as [encoded|] eqn:Hpages; [|done].
    simpl in Hout. injection Hout as <-. exists pages. split; [done|]. split.
    + intros Hin. apply (compressPages_None options) in Hin. congruence.
    + intros _. simpl. by apply (compressPages_length options).
Qed.

Lemma compressPages_geometry o1 o2 pages out1 out2 :
  compressPages o1 pages = Some out1 → compressPages o2 pages = Some out2 →
  map pageWidth out1 = map pageWidth out2 ∧
  map pageHeight out1 = map pageHeight out2.
Proof.
  revert out1 out2.
  induction pages as [|p pages IH]; intros out1 out2 H1 H2; simpl in *.
  - by simplify_eq.
  - destruct p as [|p]; [done|].
    destruct (compressPages o1 pages) as [r1|]; [|done].
    destruct (compressPages o2 pages) as [r2|]; [|done].
    simpl in *. simplify_eq. simpl.
    destruct (IH r1 r2 eq_refl eq_refl) as [-> ->]. done.
Qed.

(** X11.  The size of the output pages does not depend on the options: two
    compressions of one document, at whatever quality, dpi and mode, give
    pages of the same widths and heights; and the canvas a page is rendered
    on is never smaller than one pixel each way. *)
Theorem compress_geometry_ignores_options (d : Document)
    (o1 o2 : CompressionOptions) (out1 out2 : CompressedPDF) :
  compressPDF d o1 = Some out1 → compressPDF d o2 = Some out2 →
  map pageWidth (outPages out1) = map pageWidth (outPages out2) ∧
  map pageHeight (outPages out1) = map pageHeight (outPages out2) ∧
  Forall (λ page, 1 ≤ rasterWidth page ∧ 1 ≤ rasterHeight page) (outPages out1).
Proof.
  unfold compressPDF. intros H1 H2.
  destruct (jsView d) as [pages|]; [|done]. simpl in *.
  destruct (compressPages o1 pages) as [r1|] eqn:Hr1; [|done].
  destruct (compressPages o2 pages) as [r2|] eqn:Hr2; [|done].
  simpl in *. simplify_eq. simpl.
  destruct (compressPages_geometry o1 o2 pages r1 r2 Hr1 Hr2) as [Hw Hh].
  split; [done|]. split; [done|].
  clear Hr2 Hw Hh. revert r1 Hr1.
  induction pages as [|p pages IH]; intros r1 Hr1; simpl in Hr1.
  - simplify_eq. constructor.
  - destruct p as [|p]; [done|].
    destruct (compressPages o1 pages) as [rest|]; [|done].
    simpl in Hr1. simplify_eq. constructor; [|by apply IH].
    simpl. lia.
Qed.

Lemma compress_geometry_ignores_options_witness :
  ∃ out1 out2,
    compressPDF twoBlankPages lowestBalanced = Some out1 ∧
    compressPDF twoBlankPages highQuality = Some out2 ∧
    map pageWidth (outPages out1) = map pageWidth (outPages out2) ∧
    map rasterWidth (outPages out1) = [595; 595] ∧
    map rasterWidth (outPages out2) = [2479; 2479].
Proof.
  destruct (compressPDF twoBlankPages lowestBalanced) as [out1|] eqn:H1;
    [|discriminate H1].
  destruct (compressPDF twoBlankPages highQuality) as [out2|] eqn:H2;
    [|discriminate H2].
  exists out1, out2.
  destruct (compress_geometry_ignores_options twoBlankPages lowestBalanced
              highQuality out1 out2 H1 H2) as (Hw & _ & _).
  split; [reflexivity|]. split; [reflexivity|]. split; [exact Hw|].
  vm_compute in H1, H2. injection H1 as <-. injection H2 as <-.
  split; reflexivity.
Defined.

(** ** The slices of a capture *)

Lemma sum_snoc (l : list Z) (x : Z) :
  foldr Z.add 0 (l ++ [x]) = foldr Z.add 0 l + x.
Proof. induction l as [|y l IH]; simpl; lia. Qed.

Lemma full_slices_sum (pageW P H : Z) (quality : Q) (k : nat) :
  0 < P → Z.of_nat k * P ≤ H →
  foldr Z.add 0 (map (λ i, srcH (slicePage pageW P (H * 2) quality i)) (seq 0 k))
  = Z.of_nat k * P * 2.
Proof.
  intros HP. induction k as [|k IH]; intros Hk; [done|].
  rewrite seq_S, map_app. cbn [map]. rewrite sum_snoc, IH by lia. simpl.
  assert (Z.min (P * 2) (H * 2 - Z.of_nat k * P * 2) = P * 2) as -> by nia.
  lia.
Qed.

(** X12.  The slices cut the capture without gap or overlap: the first
    starts at row 0, each next one starts where the one before it ends, and
    their drawn heights add up to the height of the capture. *)
Theorem slices_tile_capture (pageW P H : Z) (quality : Q) :
  0 < P → 0 ≤ H →
  let slices := slicePages pageW P H quality in
  (∀ i s s', slices !! i = Some s → slices !! S i = Some s' →
     srcY s' = srcY s + srcH s) ∧
  (∃ s, slices !! 0%nat = Some s ∧ srcY s = 0) ∧
  foldr Z.add 0 (map srcH slices) = (html2canvasSize pageW H 2).2.
Proof.
  intros HP HH slices.
  destruct (totalPages_spec H P HP HH) as (_ & Hone & Hup & Hlow).
  set (n := totalPages H P) in *.
  assert (slices = map (slicePage pageW P (H * 2) quality) (seq 0 (Z.to_nat n)))
    as Hslices by reflexivity.
  assert (∀ i s, slices !! i = Some s →
            s = slicePage pageW P (H * 2) quality i ∧ Z.of_nat i < n) as Hslice.
  { intros i s Hi. rewrite Hslices, list_lookup_fmap in Hi.
    destruct (seq 0 (Z.to_nat n) !! i) as [j|] eqn:Hj; [|done].
    apply lookup_seq in Hj as [-> Hlt]. simpl in Hi.
    injection Hi as <-. split; [done | lia]. }
  split; [|split].
  - intros i s s' Hi Hi'.
    destruct (Hslice i s Hi) as [-> _].
    destruct (Hslice (S i) s' Hi') as [-> Hlt]. simpl.
    assert (Z.min (P * 2) (H * 2 - Z.of_nat i * P * 2) = P * 2) as -> by nia.
    lia.
  - exists (slicePage pageW P (H * 2) quality 0). split; [|done].
    rewrite Hslices. replace (Z.to_nat n) with (S (Z.to_nat (n - 1))) by lia.
    done.
  - rewrite Hslices, map_map.
    replace (Z.to_nat n) with (S (Z.to_nat (n - 1))) by lia.
    rewrite seq_S, map_app. cbn [map]. rewrite sum_snoc.
    rewrite (full_slices_sum pageW P H quality) by nia.
    simpl. rewrite Z2Nat.id by lia.
    assert (Z.min (P * 2) (H * 2 - (n - 1) * P * 2) = H * 2 - (n - 1) * P * 2)
      as -> by nia.
    lia.
Qed.

Lemma slices_tile_capture_witness :
  foldr Z.add 0 (map srcH (renderHtmlToPageImages 3000 (92 # 100))) = 6000.
Proof.
  destruct (slices_tile_capture A4_WIDTH_PX A4_HEIGHT_PX 3000 (92 # 100))
    as (_ & _ & Hsum); [reflexivity | discriminate |].
  exact Hsum.
Defined.

(** ** getPDFThumbnails *)

Lemma thumbnailLoop_length thumbnail scale pages thumbs :
  thumbnailLoop thumbnail scale pages = Some thumbs →
  length thumbs = length pages.
Proof.
  revert thumbs. induction pages as [|p pages IH]; intros thumbs H; simpl in H.
  - by simplify_eq.
  - destruct p as [|p]; [done|].
    destruct (thumbnailLoop thumbnail scale pages) as [rest|]; [|done].
    simpl in H. simplify_eq. simpl. by rewrite (IH rest).
Qed.

Lemma thumbnailLoop_None thumbnail scale pages :
  thumbnailLoop thumbnail scale pages = None ↔ PageFault ∈ pages.
Proof.
  induction pages as [|p pages IH]; simpl.
  - split; [done | intros H; by apply elem_of_nil in H].
  - destruct p as [|p].
    + split; [intros _; left | done].
    + destruct (thumbnailLoop thumbnail scale pages) as [out|]; simpl.
      * split; [done|]. intros H. apply elem_of_cons in H as [H|H]; [done|].
        by apply IH in H.
      * split; [|done]. intros _. right. by apply IH.
Qed.

(** X20.  Thumbnails come all or none: one for every page when every page
    renders, and the empty list, never a shorter one and never an error,
    when the document does not load or a page rejects. *)
Theorem thumbnails_all_or_nothing (thumbnail : PdfjsPage → Q → string)
    (d : Document) (scale : Q) :
  match jsView d with
  | None => getPDFThumbnails thumbnail d scale = []
  | Some pages =>
    (PageFault ∈ pages ∧ getPDFThumbnails thumbnail d scale = []) ∨
    ((PageFault ∉ pages) ∧
     length (getPDFThumbnails thumbnail d scale) = length pages)
  end.
Proof.
  unfold getPDFThumbnails. destruct (jsView d) as [pages|]; simpl; [|done].
  destruct (thumbnailLoop thumbnail scale pages) as [thumbs|] eqn:Hloop.
  - right. split.
    + intros Hin. apply (thumbnailLoop_None thumbnail scale) in Hin. congruence.
    + by apply (thumbnailLoop_length thumbnail scale).
  - left. split; [|done]. by apply (thumbnailLoop_None thumbnail scale).
Qed.

(** ** Page operations *)

Section PageOperationFacts.

Context {Page : Type}.

Implicit Types pdf : list Page.

Lemma pagesWhere_ext keep keep' k pdf :
  (∀ j, k ≤ j < k + length pdf → keep j = keep' j)%nat →
  pagesWhere keep k pdf = pagesWhere keep' k pdf.
Proof.
  revert k. induction pdf as [|p pdf IH]; intros k Hext; simpl; [done|].
  rewrite <- (Hext k) by (simpl; lia).
  rewrite (IH (S k)); [done|]. intros j Hj. apply Hext. simpl. lia.
Qed.

Lemma pagesWhere_all keep k pdf :
  (∀ j, k ≤ j < k + length pdf → keep j = true)%nat →
  pagesWhere keep k pdf = pdf.
Proof.
  revert k. induction pdf as [|p pdf IH]; intros k Hall; simpl; [done|].
  rewrite Hall by (simpl; lia). f_equal. apply IH.
  intros j Hj. apply Hall. simpl. lia.
Qed.

Lemma pagesWhere_shift keep keep' k pdf :
  (∀ j, k ≤ j → keep' (S j) = keep j)%nat →
  pagesWhere keep k pdf = pagesWhere keep' (S k) pdf.
Proof.
  revert k. induction pdf as [|p pdf IH]; intros k Hshift; simpl; [done|].
  rewrite Hshift by lia. rewrite (IH (S k)); [done|].
  intros j Hj. apply Hshift. lia.
Qed.

Lemma pagesWhere_delete keep keep' k n pdf :
  (∀ j, j < k + n → keep' j = keep j)%nat →
  keep' (k + n)%nat = false →
  (∀ j, k + n ≤ j → keep' (S j) = keep j)%nat →
  (n < length pdf)%nat →
  pagesWhere keep k (delete n pdf) = pagesWhere keep' k pdf.
Proof.
  revert k pdf. induction n as [|n IH]; intros k [|p pdf] Hlow Hat Hhigh Hlen;
    simpl in *; try lia.
  - rewrite Nat.add_0_r in Hat. rewrite Hat.
    apply pagesWhere_shift. intros j Hj. apply Hhigh. lia.
  - rewrite Hlow by lia. rewrite (IH (S k) pdf); [done|..].
    + intros j Hj. apply Hlow. lia.
    + by replace (S k + n)%nat with (k + S n)%nat by lia.
    + intros j Hj. apply Hhigh. lia.
    + lia.
Qed.

Lemma remove_descending (s : list Z) pdf :
  StronglySorted (λ a b, b < a) s →
  fold_left removeStep s pdf
  = pagesWhere (λ i, bool_decide (Z.of_nat i ∉ s)) 0 pdf.
Proof.
  intros Hsorted. revert pdf.
  induction Hsorted as [|i s Hsorted IH Hall]; intros pdf; cbn [fold_left].
  - symmetry. apply pagesWhere_all. intros j _.
    apply bool_decide_eq_true. apply not_elem_of_nil.
  - rewrite IH. rewrite Forall_forall in Hall.
    unfold removeStep, getPageCount, removePage.
    destruct (Z.leb_spec 0 i) as [Hi0|Hi0]; simpl;
      [destruct (Z.ltb_spec i (Z.of_nat (length pdf))) as [Hlt|Hge]|].
    + apply (pagesWhere_delete _ _ 0 (Z.to_nat i)); simpl.
      * intros j Hj. apply bool_decide_ext. rewrite not_elem_of_cons.
        split; [tauto|]. intros H. split; [lia | done].
      * apply bool_decide_eq_false. intros H. apply H.
        rewrite Z2Nat.id by lia. left.
      * intros j Hj. apply bool_decide_ext.
        split; intros _ Hin.
        -- apply Hall in Hin. lia.
        -- apply elem_of_cons in Hin as [Hin|Hin]; [lia|]. apply Hall in Hin. lia.
      * lia.
    + apply pagesWhere_ext. intros j Hj. apply bool_decide_ext.
      rewrite not_elem_of_cons. split; [|tauto]. intros H. split; [lia | done].
    + apply pagesWhere_ext. intros j Hj. apply bool_decide_ext.
      rewrite not_elem_of_cons. split; [|tauto]. intros H. split; [lia | done].
Qed.

Lemma pageAt_Some pdf i : is_Some (pageAt pdf i) ↔ 0 ≤ i < getPageCount pdf.
Proof.
  unfold pageAt, getPageCount. destruct (Z.leb_spec 0 i).
  - rewrite lookup_lt_is_Some. lia.
  - split; [by intros [? ?] | lia].
Qed.

Lemma copyPages_omap pdf indices out :
  copyPages pdf indices = Some out → out = omap (pageAt pdf) indices.
Proof.
  unfold copyPages. fold (pageAt pdf). intros Hout.
  apply mapM_Some in Hout.
  induction Hout as [|i p indices out Hp _ IH]; simpl; [done|].
  by rewrite Hp, IH.
Qed.

Lemma copyPages_all pdf :
  copyPages pdf (Z.of_nat <$> seq 0 (length pdf)) = Some pdf.
Proof.
  unfold copyPages. fold (pageAt pdf). apply mapM_Some.
  assert (∀ copied rest, pdf = copied ++ rest →
            Forall2 (λ i p, pageAt pdf i = Some p)
              (Z.of_nat <$> seq (length copied) (length rest)) rest) as Hgen.
  { intros copied rest. revert copied.
    induction rest as [|p rest IH]; intros copied Hpdf; simpl; constructor.
    - unfold pageAt. destruct (Z.leb_spec 0 (Z.of_nat (length copied))); [|lia].
      rewrite Nat2Z.id, Hpdf, lookup_app_r by lia.
      by replace (length copied - length copied)%nat with 0%nat by lia.
    - replace (S (length copied)) with (length (copied ++ [p]))
        by (rewrite length_app; simpl; lia).
      apply IH. by rewrite <- app_assoc. }
  apply (Hgen [] pdf). done.
Qed.

End PageOperationFacts.

Lemma strictly_descending (s : list Z) :
  StronglySorted (λ a b, b ≤ a) s → NoDup s → StronglySorted (λ a b, b < a) s.
Proof.
  induction 1 as [|i s Hsorted IH Hall]; intros Hnodup; [constructor|].
  apply NoDup_cons in Hnodup as [Hnotin Hnodup].
  constructor; [by apply IH|].
  rewrite Forall_forall in *. intros j Hj.
  assert (j ≠ i) by (intros ->; done). specialize (Hall j Hj). simpl in Hall. lia.
Qed.

Lemma descending_total : Total (λ a b : Z, b ≤ a).
Proof. intros a b. lia. Qed.

Lemma descending_trans : Transitive (λ a b : Z, b ≤ a).
Proof. intros a b c. lia. Qed.

Lemma filter_all {A} (P : A → Prop) `{∀ x, Decision (P x)} (l : list A) :
  Forall P l → filter P l = l.
Proof.
  induction 1 as [|x l Hx _ IH]; [done|].
  by rewrite filter_cons_True, IH.
Qed.

Lemma savedPages_nonempty {Page : Type} (defaultPage : Page) (pdf : list Page) :
  pdf ≠ [] → savedPages defaultPage pdf = pdf.
Proof. by destruct pdf. Qed.

Lemma savedPages_Permutation {Page : Type} (defaultPage : Page)
    (pdf pdf' : list Page) :
  pdf ≡ₚ pdf' → savedPages defaultPage pdf ≡ₚ savedPages defaultPage pdf'.
Proof.
  intros Hperm. destruct pdf as [|p pdf].
  - apply Permutation_nil_l in Hperm. by rewrite <- Hperm.
  - destruct pdf' as [|p' pdf']; [|done].
    by apply Permutation_nil_r in Hperm.
Qed.

(** X13.  Given indices without repetition, the saved document of
    [removePDFPages] holds exactly the pages whose index is not among them,
    in their order, indices that are no page of the document being passed
    over; unless no page is left, when it holds the one empty page that
    saving adds. *)
Theorem removePDFPages_removes_selected {Page : Type} (defaultPage : Page)
    (pdf : list Page) (pagesToRemove : list Z) :
  NoDup pagesToRemove →
  let kept := pagesWhere (λ i, bool_decide (Z.of_nat i ∉ pagesToRemove)) 0 pdf in
  removePDFPages defaultPage pdf pagesToRemove = savedPages defaultPage kept ∧
  (kept ≠ [] → removePDFPages defaultPage pdf pagesToRemove = kept) ∧
  (kept = [] → removePDFPages defaultPage pdf pagesToRemove = [defaultPage]).
Proof.
  intros Hnodup kept.
  assert (removePDFPages defaultPage pdf pagesToRemove
          = savedPages defaultPage kept) as Hsaved.
  { unfold removePDFPages.
    pose proof (merge_sort_Permutation (λ a b : Z, b ≤ a) pagesToRemove
                  (H := λ a b, decide (b ≤ a))) as Hperm.
    pose proof (@StronglySorted_merge_sort Z (λ a b : Z, b ≤ a)
                  (λ a b, decide (b ≤ a)) descending_trans descending_total
                  pagesToRemove) as Hsorted.
    fold (sortDescending pagesToRemove) in Hperm, Hsorted.
    change (savedPages defaultPage
              (fold_left removeStep (sortDescending pagesToRemove) pdf)
            = savedPages defaultPage kept).
    f_equal. rewrite remove_descending.
    - apply pagesWhere_ext. intros j _. apply bool_decide_ext. by rewrite Hperm.
    - apply strictly_descending; [done|]. by rewrite Hperm. }
  split; [exact Hsaved|]. rewrite Hsaved. split.
  - apply savedPages_nonempty.
  - by intros ->.
Qed.

Lemma removePDFPages_removes_selected_witness :
  removePDFPages "blank" ["cover"; "intro"; "body"; "index"] [2; 0; 7]
    = ["intro"; "index"] ∧
  removePDFPages "blank" ["cover"; "intro"; "body"; "index"] [1; 3; 0; 2]
    = ["blank"].
Proof.
  split.
  - destruct (removePDFPages_removes_selected "blank"
                ["cover"; "intro"; "body"; "index"] [2; 0; 7]) as (_ & Hkept & _).
    + apply (bool_decide_unpack _). reflexivity.
    + rewrite Hkept; [reflexivity | discriminate].
  - destruct (removePDFPages_removes_selected "blank"
                ["cover"; "intro"; "body"; "index"] [1; 3; 0; 2]) as (_ & _ & Hnone).
    + apply (bool_decide_unpack _). reflexivity.
    + apply Hnone. reflexivity.
Defined.

(** X14.  Toggling a page keeps the selection free of repetitions, flips
    whether that page is selected and touches no other page; so a selection
    built by toggles from the empty one is one [removePDFPages] handles as
    stated.  Toggling a page in and out again gives the selection back. *)
Theorem togglePage_selection (i : Z) (prev : list Z) :
  NoDup prev →
  NoDup (togglePage i prev) ∧
  (i ∈ togglePage i prev ↔ i ∉ prev) ∧
  (∀ j, j ≠ i → (j ∈ togglePage i prev ↔ j ∈ prev)) ∧
  (i ∉ prev → togglePage i (togglePage i prev) = prev).
Proof.
  intros Hnodup. unfold togglePage at 1 2 3.
  destruct (decide (i ∈ prev)) as [Hin|Hout].
  - split; [by apply NoDup_filter|]. split; [|split].
    + rewrite list_elem_of_filter. tauto.
    + intros j Hj. rewrite list_elem_of_filter. tauto.
    + done.
  - split; [|split; [|split]].
    + apply NoDup_app. split; [exact Hnodup|]. split; [|apply NoDup_singleton].
      intros j Hj Hj'. apply list_elem_of_singleton in Hj' as ->. done.
    + rewrite elem_of_app, list_elem_of_singleton. tauto.
    + intros j Hj. rewrite elem_of_app, list_elem_of_singleton. tauto.
    + intros _. unfold togglePage.
      rewrite (decide_False (P := i ∈ prev)) by done.
      rewrite decide_True by (rewrite elem_of_app, list_elem_of_singleton; tauto).
      rewrite filter_app, (filter_singleton_False _ i [])
        by (intros H; by apply H).
      rewrite app_nil_r.
      clear Hnodup. induction prev as [|p prev IH]; [done|].
      apply not_elem_of_cons in Hout as [Hne Hout].
      rewrite filter_cons_True by done. f_equal. by apply IH.
Qed.

Lemma togglePage_selection_witness :
  NoDup (togglePage 2 [0; 2; 5]) ∧ togglePage 2 [0; 2; 5] = [0; 5].
Proof.
  destruct (togglePage_selection 2 [0; 2; 5]) as [Hnodup _].
  - apply (bool_decide_unpack _). reflexivity.
  - split; [exact Hnodup | reflexivity].
Defined.

(** X15.  [extractPDFPages] never raises on an index: indices that are no
    page of the document are dropped, and the saved new document holds the
    page at each of the others, in the order asked for, or the one empty
    page that saving adds when none is left; asking for every index in
    order gives the pages of the document back. *)
Theorem extractPDFPages_total {Page : Type} (defaultPage : Page)
    (pdf : list Page) (pageIndices : list Z) :
  let valid := filter (λ i, 0 ≤ i ∧ i < getPageCount pdf) pageIndices in
  ∃ copied,
    extractPDFPages defaultPage pdf pageIndices
      = Some (savedPages defaultPage copied) ∧
    Forall2 (λ i p, pdf !! Z.to_nat i = Some p) valid copied ∧
    extractPDFPages defaultPage pdf (Z.of_nat <$> seq 0 (length pdf))
      = Some (savedPages defaultPage pdf).
Proof.
  intros valid.
  assert (is_Some (copyPages pdf valid)) as [copied Hcopied].
  { unfold copyPages. fold (pageAt pdf). apply mapM_is_Some.
    apply Forall_forall. intros i Hi.
    apply list_elem_of_filter in Hi as [Hi _]. simpl. by apply pageAt_Some. }
  exists copied. split; [|split].
  - unfold extractPDFPages. fold valid. by rewrite Hcopied.
  - unfold copyPages in Hcopied. apply mapM_Some in Hcopied.
    eapply Forall2_impl; [exact Hcopied|].
    simpl. intros i p Hp. by destruct (0 <=? i).
  - unfold extractPDFPages.
    assert (filter (λ i, 0 ≤ i ∧ i < getPageCount pdf)
              (Z.of_nat <$> seq 0 (length pdf))
            = Z.of_nat <$> seq 0 (length pdf)) as ->.
    { apply filter_all, Forall_forall. intros i Hi.
      apply list_elem_of_fmap in Hi as (j & -> & Hj).
      apply elem_of_seq in Hj. unfold getPageCount. lia. }
    by rewrite copyPages_all.
Qed.

(** X16.  [rearrangePDFPages] with an ordering of all the page indices gives
    the same pages in another order, none lost and none twice (for a
    document without pages, the one empty page that saving adds); and it
    raises exactly when the ordering names an index that is no page of the
    document. *)
Theorem rearrangePDFPages_permutes {Page : Type} (defaultPage : Page)
    (pdf : list Page) (newOrder : list Z) :
  (newOrder ≡ₚ Z.of_nat <$> seq 0 (length pdf) →
     ∃ out, rearrangePDFPages defaultPage pdf newOrder = Some out ∧
            out ≡ₚ savedPages defaultPage pdf) ∧
  (rearrangePDFPages defaultPage pdf newOrder = None ↔
     ∃ i, i ∈ newOrder ∧ ¬ (0 ≤ i < getPageCount pdf)).
Proof.
  unfold rearrangePDFPages. split.
  - intros Hperm.
    assert (is_Some (copyPages pdf newOrder)) as [copied Hcopied].
    { unfold copyPages. fold (pageAt pdf). apply mapM_is_Some.
      rewrite Hperm. apply Forall_forall. intros i Hi.
      apply list_elem_of_fmap in Hi as (j & -> & Hj).
      apply elem_of_seq in Hj. simpl. apply pageAt_Some. unfold getPageCount. lia. }
    rewrite Hcopied. simpl. eexists. split; [done|].
    apply savedPages_Permutation.
    rewrite (copyPages_omap _ _ _ Hcopied), Hperm.
    by rewrite <- (copyPages_omap _ _ _ (copyPages_all pdf)).
  - assert (copyPages pdf newOrder = None ↔
            ∃ i, i ∈ newOrder ∧ ¬ (0 ≤ i < getPageCount pdf)) as Hnone.
    { unfold copyPages. fold (pageAt pdf). rewrite mapM_None, Exists_exists.
      split; intros (i & Hi & Hout); exists i; (split; [done|]).
      + intros Hin. apply pageAt_Some in Hin as [p Hp]. congruence.
      + destruct (pageAt pdf i) eqn:Hp; [|done].
        exfalso. apply Hout, pageAt_Some. by eexists. }
    rewrite <- Hnone. by destruct (copyPages pdf newOrder).
Qed.

Lemma arraySet_inside (i : nat) (v : option Z) (a : list (option Z)) :
  (i < length a)%nat → arraySet i v a = <[i := v]> a.
Proof. intros H. unfold arraySet. by rewrite decide_True. Qed.

Lemma swap_Permutation {A} (l : list A) (i j : nat) (x y : A) :
  l !! i = Some x → l !! j = Some y → i ≠ j →
  <[j := x]> (<[i := y]> l) ≡ₚ l.
Proof.
  intros Hi Hj Hne.
  apply Permutation_inj. split; [by rewrite !length_insert|].
  exists (λ k, if decide (k = i) then j else if decide (k = j) then i else k).
  split.
  - intros a b. repeat case_decide; lia.
  - intros k. repeat case_decide; subst.
    + rewrite list_lookup_insert_ne by done.
      rewrite list_lookup_insert_eq by (by eapply lookup_lt_Some). done.
    + rewrite list_lookup_insert_eq
        by (rewrite length_insert; by eapply lookup_lt_Some).
      done.
    + by rewrite !list_lookup_insert_ne by done.
Qed.

Lemma movePageInOrder_end (pageOrder : list (option Z)) (fromIndex : nat)
    (direction : Direction) :
  direction = up ∧ fromIndex = 0%nat ∨
  direction = down ∧ S fromIndex = length pageOrder →
  movePageInOrder pageOrder fromIndex direction = pageOrder.
Proof.
  intros [[-> ->] | [-> Hlast]]; unfold movePageInOrder.
  - done.
  - destruct (Z.leb_spec (Z.of_nat (length pageOrder)) (Z.of_nat fromIndex + 1));
      [|lia].
    by rewrite orb_true_r.
Qed.

Lemma movePageInOrder_swap (pageOrder : list (option Z)) (fromIndex toIndex : nat)
    (direction : Direction) (x y : option Z) :
  match direction with
  | up => S toIndex = fromIndex
  | down => toIndex = S fromIndex
  end →
  pageOrder !! fromIndex = Some x → pageOrder !! toIndex = Some y →
  movePageInOrder pageOrder fromIndex direction
  = <[toIndex := x]> (<[fromIndex := y]> pageOrder).
Proof.
  intros Hto Hx Hy.
  pose proof (lookup_lt_Some _ _ _ Hx) as Hfrom.
  pose proof (lookup_lt_Some _ _ _ Hy) as Hlen.
  unfold movePageInOrder.
  set (target := match direction with up => _ | down => _ end).
  assert (target = Z.of_nat toIndex) as ->
    by (unfold target; destruct direction; lia).
  destruct (Z.ltb_spec (Z.of_nat toIndex) 0); [lia|].
  destruct (Z.leb_spec (Z.of_nat (length pageOrder)) (Z.of_nat toIndex)); [lia|].
  simpl. rewrite Nat2Z.id. unfold arrayGet. rewrite Hx, Hy. simpl.
  rewrite (arraySet_inside fromIndex) by done.
  by rewrite arraySet_inside by (by rewrite length_insert).
Qed.

(** X17.  Moving a page of the order up or down swaps it with its
    neighbour and leaves every other place as it is, so the result is an
    ordering of the same entries, of the same length: the dialog never
    loses a page index and never holds one twice that it did not hold twice
    before.  Moving the first page up or the last page down leaves the
    order unchanged. *)
Theorem movePageInOrder_permutes (pageOrder : list (option Z)) (fromIndex : nat)
    (direction : Direction) :
  (fromIndex < length pageOrder)%nat →
  let moved := movePageInOrder pageOrder fromIndex direction in
  moved ≡ₚ pageOrder ∧
  length moved = length pageOrder ∧
  (direction = up ∧ fromIndex = 0%nat ∨
   direction = down ∧ S fromIndex = length pageOrder → moved = pageOrder) ∧
  ∀ toIndex,
    (toIndex < length pageOrder)%nat →
    match direction with
    | up => S toIndex = fromIndex
    | down => toIndex = S fromIndex
    end →
    moved !! toIndex = pageOrder !! fromIndex ∧
    moved !! fromIndex = pageOrder !! toIndex ∧
    ∀ k, k ≠ fromIndex → k ≠ toIndex → moved !! k = pageOrder !! k.
Proof.
  intros Hfrom moved.
  assert (∀ toIndex x y,
            match direction with
            | up => S toIndex = fromIndex
            | down => toIndex = S fromIndex
            end →
            pageOrder !! fromIndex = Some x → pageOrder !! toIndex = Some y →
            moved = <[toIndex := x]> (<[fromIndex := y]> pageOrder) ∧
            toIndex ≠ fromIndex) as Hswap.
  { intros toIndex x y Hto Hx Hy. split.
    - by apply movePageInOrder_swap.
    - destruct direction; lia. }
  destruct (lookup_lt_is_Some_2 pageOrder fromIndex Hfrom) as [x Hx].
  assert (moved ≡ₚ pageOrder) as Hperm.
  { destruct direction.
    - destruct fromIndex as [|toIndex].
      + unfold moved. rewrite movePageInOrder_end; [done | by left].
      + destruct (lookup_lt_is_Some_2 pageOrder toIndex) as [y Hy]; [lia|].
        destruct (Hswap toIndex x y eq_refl Hx Hy) as [-> Hne].
        by apply swap_Permutation.
    - destruct (decide (S fromIndex = length pageOrder)) as [Hlast|Hlast].
      + unfold moved. rewrite movePageInOrder_end; [done | by right].
      + destruct (lookup_lt_is_Some_2 pageOrder (S fromIndex)) as [y Hy]; [lia|].
        destruct (Hswap (S fromIndex) x y eq_refl Hx Hy) as [-> Hne].
        by apply swap_Permutation. }
  split; [exact Hperm|]. split; [by rewrite Hperm|]. split.
  - apply movePageInOrder_end.
  - intros toIndex Hlen Hto.
    destruct (lookup_lt_is_Some_2 pageOrder toIndex Hlen) as [y Hy].
    destruct (Hswap toIndex x y Hto Hx Hy) as [-> Hne].
    rewrite Hx, Hy. split; [|split].
    + apply list_lookup_insert_eq. by rewrite length_insert.
    + rewrite list_lookup_insert_ne by done. by apply list_lookup_insert_eq.
    + intros k Hk1 Hk2. by rewrite !list_lookup_insert_ne by done.
Qed.

Lemma movePageInOrder_permutes_witness :
  movePageInOrder [Some 0; Some 1; Some 2] 2 up = [Some 0; Some 2; Some 1] ∧
  movePageInOrder [Some 0; Some 1; Some 2] 2 up ≡ₚ [Some 0; Some 1; Some 2] ∧
  movePageInOrder [Some 0; Some 1; Some 2] 2 down = [Some 0; Some 1; Some 2].
Proof.
  split; [reflexivity|]. split.
  - destruct (movePageInOrder_permutes [Some 0; Some 1; Some 2] 2 up)
      as [Hperm _]; [simpl; lia | exact Hperm].
  - destruct (movePageInOrder_permutes [Some 0; Some 1; Some 2] 2 down)
      as (_ & _ & Hend & _); [simpl; lia|].
    apply Hend. right. split; reflexivity.
Defined.

(** ** Escaping plain text *)

Lemma append_cons (x : Ascii.ascii) (a b : string) :
  String x a +:+ b = String x (a +:+ b).
Proof. reflexivity. Qed.

Lemma append_assoc (a b c : string) : (a +:+ b) +:+ c = a +:+ (b +:+ c).
Proof.
  induction a as [|x a IH]; [done|].
  by rewrite !append_cons, IH.
Qed.

Lemma replaceAll_hit c rep s :
  replaceAll c rep (String c s) = rep +:+ replaceAll c rep s.
Proof. simpl. by rewrite Ascii.eqb_refl. Qed.

Lemma replaceAll_miss c rep a s :
  a ≠ c → replaceAll c rep (String a s) = String a (replaceAll c rep s).
Proof. intros Hne. simpl. by destruct (Ascii.eqb_spec a c). Qed.

Lemma replaceAll_app c rep a b :
  replaceAll c rep (a +:+ b) = replaceAll c rep a +:+ replaceAll c rep b.
Proof.
  induction a as [|x a IH]; [done|].
  rewrite append_cons. simpl.
  destruct (Ascii.eqb x c); rewrite IH; [|done].
  by rewrite append_assoc.
Qed.

Lemma escaped_cons c text :
  escaped (String c text) = escapeChar c +:+ escaped text.
Proof.
  unfold escaped, escapeChar.
  destruct (Ascii.eqb_spec c "&") as [->|Hamp].
  { rewrite replaceAll_hit, !replaceAll_app. done. }
  rewrite (replaceAll_miss "&") by done.
  destruct (Ascii.eqb_spec c "<") as [->|Hlt].
  { rewrite replaceAll_hit, !replaceAll_app. done. }
  rewrite (replaceAll_miss "<") by done.
  destruct (Ascii.eqb_spec c ">") as [->|Hgt].
  { by rewrite replaceAll_hit. }
  by rewrite (replaceAll_miss ">") by done.
Qed.

Lemma chars_app a b : chars (a +:+ b) = chars a ++ chars b.
Proof.
  unfold chars. induction a as [|x a IH]; [done|].
  rewrite append_cons. simpl. by rewrite IH.
Qed.

Ltac no_such_char :=
  unfold chars; simpl; split;
  repeat (apply not_elem_of_cons; split; [discriminate|]);
  apply not_elem_of_nil.

Lemma escapeChar_no_markup c :
  ("<"%char ∉ chars (escapeChar c)) ∧ (">"%char ∉ chars (escapeChar c)).
Proof.
  unfold escapeChar.
  destruct (Ascii.eqb_spec c "&"); [no_such_char|].
  destruct (Ascii.eqb_spec c "<"); [no_such_char|].
  destruct (Ascii.eqb_spec c ">"); [no_such_char|].
  unfold chars. simpl.
  split; intros H; apply list_elem_of_singleton in H; congruence.
Qed.

(** X18.  Whatever the text file holds, the escaped text has no [<] and no
    [>] in it: nothing of the file can open or close a tag in the markup
    that is rendered. *)
Theorem escaped_has_no_markup (text : string) :
  ("<"%char ∉ chars (escaped text)) ∧ (">"%char ∉ chars (escaped text)).
Proof.
  induction text as [|c text [IHlt IHgt]]; [split; apply not_elem_of_nil|].
  rewrite escaped_cons, chars_app, !not_elem_of_app.
  destruct (escapeChar_no_markup c) as [Hlt Hgt]. done.
Qed.

Lemma escapeChar_nonempty c : ∃ a rest, escapeChar c = String a rest.
Proof. unfold escapeChar. repeat case_match; eauto. Qed.

Lemma escapeChar_inj c1 c2 e1 e2 :
  escapeChar c1 +:+ e1 = escapeChar c2 +:+ e2 → c1 = c2 ∧ e1 = e2.
Proof.
  unfold escapeChar.
  destruct (Ascii.eqb_spec c1 "&") as [->|?], (Ascii.eqb_spec c2 "&") as [->|?];
    [|destruct (Ascii.eqb_spec c2 "<") as [->|?];
       [|destruct (Ascii.eqb_spec c2 ">") as [->|?]]
     |destruct (Ascii.eqb_spec c1 "<") as [->|?];
       [|destruct (Ascii.eqb_spec c1 ">") as [->|?]]
     |destruct (Ascii.eqb_spec c1 "<") as [->|?], (Ascii.eqb_spec c2 "<") as [->|?];
       [|destruct (Ascii.eqb_spec c2 ">") as [->|?]
        |destruct (Ascii.eqb_spec c1 ">") as [->|?]
        |destruct (Ascii.eqb_spec c1 ">") as [->|?], (Ascii.eqb_spec c2 ">") as [->|?]]];
    rewrite ?append_cons; intros Heq; simplify_eq; done.
Qed.

Lemma escaped_inj (text1 text2 : string) :
  escaped text1 = escaped text2 → text1 = text2.
Proof.
  revert text2. induction text1 as [|c1 text1 IH]; intros [|c2 text2] Heq.
  - done.
  - rewrite escaped_cons in Heq.
    destruct (escapeChar_nonempty c2) as (a & rest & Hc). rewrite Hc in Heq. done.
  - rewrite escaped_cons in Heq.
    destruct (escapeChar_nonempty c1) as (a & rest & Hc). rewrite Hc in Heq. done.
  - rewrite !escaped_cons in Heq.
    apply escapeChar_inj in Heq as [-> Heq]. f_equal. by apply IH.
Qed.

(** X19.  Escaping loses nothing: two different texts never have the same
    escaped text, so a file that already spells an entity is not mistaken
    for the character the entity stands for. *)
Theorem escaped_injective (text1 text2 : string) :
  text1 ≠ text2 → escaped text1 ≠ escaped text2.
Proof. intros Hne Heq. by apply Hne, escaped_inj. Qed.

Lemma escaped_injective_witness :
  escaped "<" = "&lt;" ∧ escaped "&lt;" = "&amp;lt;" ∧
  escaped "<" ≠ escaped "&lt;".
Proof.
  split; [reflexivity|]. split; [reflexivity|].
  apply (escaped_injective "<" "&lt;"). discriminate.
Defined.

Lemma split_nonempty sep s : split sep s ≠ [].
Proof.
  destruct s as [|a s]; simpl; [done|].
  destruct (Ascii.eqb a sep); [done|]. by destruct (split sep s).
Qed.

Lemma split_length_hit sep s :
  length (split sep (String sep s)) = S (length (split sep s)).
Proof. simpl. by rewrite Ascii.eqb_refl. Qed.

Lemma split_length_miss sep a s :
  a ≠ sep → length (split sep (String a s)) = length (split sep s).
Proof.
  intros Hne. simpl. destruct (Ascii.eqb_spec a sep); [done|].
  pose proof (split_nonempty sep s). by destruct (split sep s).
Qed.

Lemma split_length_escapeChar c s :
  length (split newline (escapeChar c +:+ s))
  = ((if decide (c = newline) then 1 else 0) + length (split newline s))%nat.
Proof.
  unfold escapeChar.
  destruct (Ascii.eqb_spec c "&") as [->|?];
    [|destruct (Ascii.eqb_spec c "<") as [->|?];
       [|destruct (Ascii.eqb_spec c ">") as [->|?]]];
    rewrite ?append_cons;
    try (rewrite decide_False by discriminate;
         repeat (rewrite split_length_miss by discriminate); done).
  destruct (decide (c = newline)) as [->|Hne].
  - by rewrite split_length_hit.
  - by rewrite split_length_miss.
Qed.

(** X21.  Without [mono], the text becomes one paragraph for each of its
    lines: one more paragraph than it has line feeds, escaping neither adds
    a line nor joins two. *)
Theorem one_paragraph_per_line (text : string) :
  length (split newline (escaped text))
  = S (length (filter (λ c, c = newline) (chars text))).
Proof.
  induction text as [|c text IH]; [done|].
  rewrite escaped_cons, split_length_escapeChar, IH.
  unfold chars. simpl. rewrite filter_cons.
  destruct (decide (c = newline)); simpl; lia.
Qed.
